(** * Adversarial search for knight's Isolation: [my_custom_player.py]

    A shallow embedding of the two search engines of the custom player,
    Monte Carlo Tree Search with UCT selection and depth-limited minimax
    with alpha-beta pruning, over the game-state interface the player
    consumes.

    Modelling conventions.
    - The game-state module ([isolation]) is not part of the embedded file;
      the player only uses its methods, which are collected in the class
      [Game] and taken as a parameter.
    - Python integers are [Z].  The values flowing through the minimax
      search are integers and the two floats [float("inf")] and
      [float("-inf")]; they are the type [value].
    - Python exceptions are the [Raise] outcome of the type [res].  The
      third outcome, [Stuck], is not a Python behaviour: it marks a loop of
      the model that ran out of fuel, a clock trace that ended before the
      deadline, or an identifier that names no node.
    - The [UTCNode] objects live in a store, a list indexed by node
      identifier; [parent] and [children] hold identifiers, which renders
      Python's object references and their aliasing.
    - [node.reward] is a float that only ever receives additions of [1] and
      [-1], which are exact; it is a [Z].  The UCT score itself
      ([/], [math.log], [math.sqrt]) is idealised over the real numbers.
    - [random.choice] draws from an oracle [draws : nat -> nat]; the k-th
      draw [d] selects the element of index [d mod len].
    - [time.time()] reads the next entry of a finite trace of clock
      readings (in seconds, rationals). *)

From Stdlib Require Import ZArith QArith Reals Lia Lra.
From stdpp Require Import base option list.

#[local] Open Scope Z_scope.

(** ** Outcomes *)

Inductive exn : Type :=
  | ValueError
  | IndexError
  | ZeroDivisionError
  | AttributeError.

Inductive res (A : Type) : Type :=
  | Ret (a : A)
  | Raise (e : exn)
  | Stuck.

Arguments Ret {A} a.
Arguments Raise {A} e.
Arguments Stuck {A}.

Definition res_bind {A B} (m : res A) (k : A -> res B) : res B :=
  match m with
  | Ret a => k a
  | Raise e => Raise e
  | Stuck => Stuck
  end.

Declare Scope res_scope.
Delimit Scope res_scope with res.
Notation "'let*' x ':=' m 'in' k" := (res_bind m (fun x => k))
  (at level 10, x name, m at level 100, k at level 200) : res_scope.

(** ** Search values: integers and the two infinite floats *)

Inductive value : Type :=
  | NegInf
  | Fin (z : Z)
  | PosInf.

#[global] Instance value_eq_dec : EqDecision value.
Proof. solve_decision. Defined.

(** [a <= b] on Python numbers. *)
Definition vle (a b : value) : bool :=
  match a, b with
  | NegInf, _ => true
  | _, PosInf => true
  | Fin x, Fin y => x <=? y
  | _, _ => false
  end.

(** [a < b]. *)
Definition vlt (a b : value) : bool := negb (vle b a).

(** Python's [max(a, b)] keeps [a] unless [b > a]; [min(a, b)] keeps [a]
    unless [b < a]. *)
Definition vmax (a b : value) : value := if vlt a b then b else a.
Definition vmin (a b : value) : value := if vlt b a then b else a.

(** ** The game-state interface *)

Class Game : Type := {
  State : Type;
  Action : Type;
  Loc : Type;
  Cell : Type;
  Action_eq_dec :: EqDecision Action;
  actions : State -> list Action;
  result : State -> Action -> State;
  terminal_test : State -> bool;
  utility : State -> Z -> value;
  player : State -> Z;
  locs : State -> Loc * Loc;
  liberties : State -> Loc -> list Cell;
  _has_liberties : State -> Z -> bool;
}.

(** Indexing a 2-tuple with a Python integer: negative indices count from
    the end, anything outside [-2 .. 1] raises [IndexError]. *)
Definition tuple2_get {A} (t : A * A) (i : Z) : res A :=
  if (i =? 0) || (i =? -2) then Ret (fst t)
  else if (i =? 1) || (i =? -1) then Ret (snd t)
  else Raise IndexError.

Section AlphaBeta.
Context {G : Game}.
#[local] Open Scope res_scope.

(** [score]: liberties of the player minus liberties of the opponent. *)
Definition score (state : State) (player_id : Z) : res Z :=
  let* my_loc := tuple2_get (locs state) player_id in
  let* opp_loc := tuple2_get (locs state) (1 - player_id) in
  let my_moves := liberties state my_loc in
  let opp_moves := liberties state opp_loc in
  Ret (Z.of_nat (length my_moves) - Z.of_nat (length opp_moves)).

(** The [for] loop of [min_value]; [child] is the recursive call
    [max_value(state.result(a), player_id, depth - 1, alpha, beta)]. *)
Fixpoint min_loop (child : State -> value -> value -> res value)
    (state : State) (acts : list Action) (v alpha beta : value) : res value :=
  match acts with
  | [] => Ret v
  | a :: rest =>
      let* w := child (result state a) alpha beta in
      let v := vmin v w in
      if vle v alpha then Ret v
      else min_loop child state rest v alpha (vmin beta v)
  end.

(** The [for] loop of [max_value]. *)
Fixpoint max_loop (child : State -> value -> value -> res value)
    (state : State) (acts : list Action) (v alpha beta : value) : res value :=
  match acts with
  | [] => Ret v
  | a :: rest =>
      let* w := child (result state a) alpha beta in
      let v := vmax v w in
      if vle beta v then Ret v
      else max_loop child state rest v (vmax alpha v) beta
  end.

(** [min_value] and [max_value].  The recursion is on [fuel]; [depth] is
    the Python integer, which is only compared with [0]. *)
Fixpoint min_value (fuel : nat) (state : State) (player_id depth : Z)
    (alpha beta : value) : res value :=
  match fuel with
  | O => Stuck
  | S fuel =>
      if terminal_test state then Ret (utility state player_id)
      else if depth =? 0 then
        let* sc := score state player_id in Ret (Fin sc)
      else
        min_loop (fun s a b => max_value fuel s player_id (depth - 1) a b)
                 state (actions state) PosInf alpha beta
  end
with max_value (fuel : nat) (state : State) (player_id depth : Z)
    (alpha beta : value) : res value :=
  match fuel with
  | O => Stuck
  | S fuel =>
      if terminal_test state then Ret (utility state player_id)
      else if depth =? 0 then
        let* sc := score state player_id in Ret (Fin sc)
      else
        max_loop (fun s a b => min_value fuel s player_id (depth - 1) a b)
                 state (actions state) NegInf alpha beta
  end.

(** The [for] loop of [alpha_beta_search]; [beta] stays [float("inf")].
    The loop state is [(alpha, best_score, best_move)]. *)
Fixpoint root_loop (child : State -> value -> res value) (state : State)
    (acts : list Action) (alpha best_score : value)
    (best_move : option Action) : res (option Action * value) :=
  match acts with
  | [] => Ret (best_move, best_score)
  | a :: rest =>
      let* v := child (result state a) alpha in
      let alpha := vmax alpha v in
      if vle best_score v then root_loop child state rest alpha v (Some a)
      else root_loop child state rest alpha best_score best_move
  end.

(** The final [best_move] together with the final [best_score]. *)
Definition alpha_beta_root (fuel : nat) (player_id : Z) (state : State)
    (depth : Z) : res (option Action * value) :=
  root_loop (fun s a => min_value fuel s player_id (depth - 1) a PosInf)
            state (actions state) NegInf NegInf None.

(** [alpha_beta_search]: [None] is Python's [None]. *)
Definition alpha_beta_search (fuel : nat) (player_id : Z) (state : State)
    (depth : Z) : res (option Action) :=
  let* r := alpha_beta_root fuel player_id state depth in Ret (fst r).

(** *** Unpruned minimax, as the specification words it

    "if state is terminal, return its exact utility for the search player;
    if depth is exhausted, return the static evaluation; otherwise take
    the maximum (minimum) over children" -- no window, no early return. *)
Fixpoint fold_res (f : value -> value -> value)
    (child : State -> res value) (state : State) (acts : list Action)
    (v : value) : res value :=
  match acts with
  | [] => Ret v
  | a :: rest =>
      let* w := child (result state a) in
      fold_res f child state rest (f v w)
  end.

Fixpoint minimax_min (fuel : nat) (state : State) (player_id depth : Z)
    : res value :=
  match fuel with
  | O => Stuck
  | S fuel =>
      if terminal_test state then Ret (utility state player_id)
      else if depth =? 0 then
        let* sc := score state player_id in Ret (Fin sc)
      else
        fold_res vmin (fun s => minimax_max fuel s player_id (depth - 1))
                 state (actions state) PosInf
  end
with minimax_max (fuel : nat) (state : State) (player_id depth : Z)
    : res value :=
  match fuel with
  | O => Stuck
  | S fuel =>
      if terminal_test state then Ret (utility state player_id)
      else if depth =? 0 then
        let* sc := score state player_id in Ret (Fin sc)
      else
        fold_res vmax (fun s => minimax_min fuel s player_id (depth - 1))
                 state (actions state) NegInf
  end.

End AlphaBeta.

(** ** The search tree *)

(** Node identifiers are positions in the store. *)
Abbreviation node_id := nat (only parsing).

Section Tree.
Context {G : Game}.

Record UTCNode : Type := mkNode {
  visits : Z;
  reward : Z;
  state : State;
  children : list node_id;
  children_actions : list Action;
  parent : option node_id;
}.

(** [UTCNode.__init__]. *)
Definition UTCNode_init (st : State) (par : option node_id) : UTCNode :=
  {| visits := 1; reward := 0; state := st;
     children := []; children_actions := []; parent := par |}.

(** [is_expanded]. *)
Definition is_expanded (nd : UTCNode) : bool :=
  (length (children_actions nd) =? length (actions (state nd)))%nat.

(** The store of nodes and the position in the stream of random draws. *)
Record world : Type := mkWorld {
  heap : list UTCNode;
  seed : nat;
}.

Definition M (A : Type) : Type := world -> res (A * world).

Definition ret {A} (a : A) : M A := fun w => Ret (a, w).
Definition raise {A} (e : exn) : M A := fun _ => Raise e.
Definition stuck {A} : M A := fun _ => Stuck.
Definition bind {A B} (m : M A) (k : A -> M B) : M B :=
  fun w => match m w with
           | Ret (a, w') => k a w'
           | Raise e => Raise e
           | Stuck => Stuck
           end.
Definition lift {A} (r : res A) : M A :=
  fun w => match r with
           | Ret a => Ret (a, w)
           | Raise e => Raise e
           | Stuck => Stuck
           end.

(** Reading and writing a node through its identifier. *)
Definition get_node (i : node_id) : M UTCNode :=
  fun w => match heap w !! i with
           | Some nd => Ret (nd, w)
           | None => Stuck
           end.
Definition set_node (i : node_id) (nd : UTCNode) : M unit :=
  fun w => Ret (tt, {| heap := <[i := nd]> (heap w); seed := seed w |}).
(** A new object gets the next free identifier. *)
Definition alloc (nd : UTCNode) : M node_id :=
  fun w => Ret (length (heap w),
                {| heap := heap w ++ [nd]; seed := seed w |}).

End Tree.

Declare Scope mcts_scope.
Delimit Scope mcts_scope with mcts.
Notation "'let*' x ':=' m 'in' k" := (bind m (fun x => k))
  (at level 10, x name, m at level 100, k at level 200) : mcts_scope.

(** [MAX_TIME = 0.15 - 0.01] seconds, as a rational; a clock reading is
    compared with the deadline by [<]. *)
Definition MAX_TIME : Q := (15 # 100) - (1 # 100).

Section MCTS.
Context {G : Game}.
Variable draws : nat -> nat.
#[local] Open Scope mcts_scope.

(** [random.choice(seq)]: [IndexError] on an empty sequence. *)
Definition random_choice {A} (seq : list A) : M A :=
  fun w => match seq !! (draws (seed w) mod length seq)%nat with
           | Some x => Ret (x, {| heap := heap w; seed := S (seed w) |})
           | None => Raise IndexError
           end.

(** [add_child]: the child is created, then appended to [self.children],
    and the action to [self.children_actions]. *)
Definition add_child (self : node_id) (st : State) (action : Action) : M unit :=
  let* child := alloc (UTCNode_init st (Some self)) in
  let* nd := get_node self in
  set_node self
    {| visits := visits nd; reward := reward nd; state := state nd;
       children := children nd ++ [child];
       children_actions := children_actions nd ++ [action];
       parent := parent nd |}.

(** [exploitation]: [node.reward / node.visits]. *)
Definition exploitation (nd : UTCNode) : res R :=
  if visits nd =? 0 then Raise ZeroDivisionError
  else Ret (IZR (reward nd) / IZR (visits nd))%R.

(** [exploration]:
    [math.sqrt(math.log(node.parent.visits) / node.visits)].
    [node.parent] of the root is [None] ([AttributeError]); [math.log]
    raises [ValueError] outside the positive numbers, [math.sqrt] on a
    negative one. *)
Definition exploration (sigma : list UTCNode) (nd : UTCNode) : res R :=
  match parent nd with
  | None => Raise AttributeError
  | Some p =>
      match sigma !! p with
      | None => Stuck
      | Some pn =>
          if visits pn <=? 0 then Raise ValueError
          else if visits nd =? 0 then Raise ZeroDivisionError
          else
            let q := (ln (IZR (visits pn)) / IZR (visits nd))%R in
            if Rlt_dec q 0 then Raise ValueError else Ret (sqrt q)
      end
  end.

(** The key of [best_child]:
    [exploitation(child) + c_factor * exploration(child)]. *)
Definition uct_key (sigma : list UTCNode) (c_factor : R) (child : node_id)
    : res R :=
  match sigma !! child with
  | None => Stuck
  | Some nd =>
      res_bind (exploitation nd) (fun x =>
      res_bind (exploration sigma nd) (fun y =>
      Ret (x + c_factor * y)%R))
  end.

(** Python's [max(iterable, key=...)]: the first element whose key is
    maximal; [ValueError] on an empty iterable. *)
Fixpoint max_loop_key (key : node_id -> res R) (best : node_id) (best_key : R)
    (l : list node_id) : res node_id :=
  match l with
  | [] => Ret best
  | x :: rest =>
      res_bind (key x) (fun k =>
      if Rlt_dec best_key k then max_loop_key key x k rest
      else max_loop_key key best best_key rest)
  end.

Definition py_max (key : node_id -> res R) (l : list node_id) : res node_id :=
  match l with
  | [] => Raise ValueError
  | x :: rest => res_bind (key x) (fun k => max_loop_key key x k rest)
  end.

(** [best_child]. *)
Definition best_child (node : node_id) (c_factor : R) : M node_id :=
  let* nd := get_node node in
  fun w => lift (py_max (uct_key (heap w) c_factor) (children nd)) w.

(** [expand]. *)
Definition expand (node : node_id) : M node_id :=
  let* nd := get_node node in
  let* action :=
    random_choice
      (filter (fun a => a ∉ children_actions nd) (actions (state nd))) in
  let new_state := result (state nd) action in
  let* _ := add_child node new_state action in
  let* nd' := get_node node in
  match last (children nd') with
  | Some c => ret c
  | None => raise IndexError
  end.

(** [tree_policy]. *)
Fixpoint tree_policy (fuel : nat) (node : node_id) : M node_id :=
  match fuel with
  | O => stuck
  | S fuel =>
      let* nd := get_node node in
      if terminal_test (state nd) then ret node
      else if negb (is_expanded nd) then expand node
      else
        let* b := best_child node (sqrt 2) in
        tree_policy fuel b
  end.

(** The [while] loop of [default_policy]: the terminal state the random
    playout ends in. *)
Fixpoint rollout (fuel : nat) (st : State) : M State :=
  match fuel with
  | O => stuck
  | S fuel =>
      if terminal_test st then ret st
      else
        let* action := random_choice (actions st) in
        rollout fuel (result st action)
  end.

(** [default_policy]. *)
Definition default_policy (fuel : nat) (st : State) : M Z :=
  let player_id := player st in
  let* final := rollout fuel st in
  if _has_liberties final player_id then ret (-1) else ret 1.

(** [backprop]; [None] is the parent of the root. *)
Fixpoint backprop (fuel : nat) (node : option node_id) (rew : Z) : M unit :=
  match node with
  | None => ret tt
  | Some i =>
      match fuel with
      | O => stuck
      | S fuel =>
          let* nd := get_node i in
          let* _ :=
            set_node i
              {| visits := visits nd + 1; reward := reward nd + rew;
                 state := state nd; children := children nd;
                 children_actions := children_actions nd;
                 parent := parent nd |} in
          backprop fuel (parent nd) (- rew)
      end
  end.

(** One pass of the body of the [while] loop of [MCTS_search]. *)
Definition mcts_iteration (fuel : nat) (root_node : node_id) : M unit :=
  let* leaf_node := tree_policy fuel root_node in
  let* leaf := get_node leaf_node in
  let* rew := default_policy fuel (state leaf) in
  backprop fuel (Some leaf_node) rew.

(** The [while time.time() < time_end] loop; every test reads the clock. *)
Fixpoint search_loop (fuel : nat) (readings : list Q) (time_end : Q)
    (root_node : node_id) : M unit :=
  match readings with
  | [] => stuck
  | now :: later =>
      if Qlt_le_dec now time_end then
        let* _ := mcts_iteration fuel root_node in
        search_loop fuel later time_end root_node
      else ret tt
  end.

(** [list.index]: the first position of [x], [ValueError] if there is
    none. *)
Definition list_index (x : node_id) (l : list node_id) : res nat :=
  match list_find (fun y => y = x) l with
  | Some (i, _) => Ret i
  | None => Raise ValueError
  end.

(** The [return] statement of [MCTS_search]. *)
Definition final_action (root_node : node_id) : M Action :=
  let* best := best_child root_node (sqrt 2) in
  let* nd := get_node root_node in
  let* i := lift (list_index best (children nd)) in
  match children_actions nd !! i with
  | Some a => ret a
  | None => raise IndexError
  end.

(** [MCTS_search], run on a store of its own. *)
Definition MCTS_body (fuel : nat) (clock : list Q) (st : State) : M Action :=
  let* root_node := alloc (UTCNode_init st None) in
  let* root := get_node root_node in
  if terminal_test (state root) then random_choice (actions st)
  else
    match clock with
    | [] => stuck
    | now :: readings =>
        let time_end := (now + MAX_TIME)%Q in
        let* _ := search_loop fuel readings time_end root_node in
        final_action root_node
    end.

Definition MCTS_search (fuel : nat) (clock : list Q) (st : State) (sd : nat)
    : res (Action * world) :=
  MCTS_body fuel clock st {| heap := []; seed := sd |}.

End MCTS.

(** ** A small concrete position

    Six positions of a blocking game in the style of Isolation, on cells
    [1 .. 6].  Player 0 stands on cell 5 and can reach cells 2 and 3;
    player 1 stands on cell 6 and can reach cells 1 and 2.  Cell 1 is a dead
    end, cell 3 only leads to cell 2, and cell 2 leads to cell 4.  As in
    Isolation, a position is terminal as soon as one of the players has no
    liberties, the legal actions are the liberties of the player to move,
    and the utility of a terminal position is infinite. *)
Module Toy.

Inductive position : Type := Start | AfterY | AfterZ | EndYX | EndZX | EndZY.
Inductive move : Type := ToX | ToY | ToZ | ToW.

#[global] Instance move_eq_dec : EqDecision move.
Proof. solve_decision. Defined.

Definition move_of (c : nat) : move :=
  match c with
  | 1%nat => ToX
  | 2%nat => ToY
  | 3%nat => ToZ
  | _ => ToW
  end.

Definition toy_player (s : position) : Z :=
  match s with
  | Start | EndYX | EndZX | EndZY => 0
  | AfterY | AfterZ => 1
  end.

Definition toy_locs (s : position) : nat * nat :=
  match s with
  | Start => (5, 6)
  | AfterY => (2, 6)
  | AfterZ => (3, 6)
  | EndYX => (2, 1)
  | EndZX => (3, 1)
  | EndZY => (3, 2)
  end%nat.

Definition toy_liberties (s : position) (loc : nat) : list nat :=
  match s, loc with
  | Start, 5 => [2; 3]
  | Start, 6 => [1; 2]
  | AfterY, 2 => [4]
  | AfterY, 6 => [1]
  | AfterZ, 3 => [2]
  | AfterZ, 6 => [1; 2]
  | EndYX, 2 => [4]
  | EndZX, 3 => [2]
  | EndZY, 2 => [4]
  | _, _ => []
  end%nat.

Definition toy_loc_of (s : position) (p : Z) : nat :=
  if p =? 0 then fst (toy_locs s) else snd (toy_locs s).

Definition toy_has_liberties (s : position) (p : Z) : bool :=
  match toy_liberties s (toy_loc_of s p) with
  | [] => false
  | _ => true
  end.

Definition toy_actions (s : position) : list move :=
  map move_of (toy_liberties s (toy_loc_of s (toy_player s))).

Definition toy_terminal (s : position) : bool :=
  negb (toy_has_liberties s 0 && toy_has_liberties s 1).

Definition toy_utility (s : position) (p : Z) : value :=
  if negb (toy_terminal s) then Fin 0
  else if Bool.eqb (toy_has_liberties s (toy_player s)) (p =? toy_player s)
       then PosInf else NegInf.

Definition toy_result (s : position) (a : move) : position :=
  match s, a with
  | Start, ToY => AfterY
  | Start, ToZ => AfterZ
  | AfterY, ToX => EndYX
  | AfterZ, ToX => EndZX
  | AfterZ, ToY => EndZY
  | _, _ => s
  end.

#[global] Instance game : Game := {|
  State := position;
  Action := move;
  Loc := nat;
  Cell := nat;
  actions := toy_actions;
  result := toy_result;
  terminal_test := toy_terminal;
  utility := toy_utility;
  player := toy_player;
  locs := toy_locs;
  liberties := toy_liberties;
  _has_liberties := toy_has_liberties;
|}.

(** The number of moves a position can still be followed by. *)
Definition toy_rank (s : position) : nat :=
  match s with
  | Start => 2
  | AfterY | AfterZ => 1
  | _ => 0
  end.

End Toy.


(** ** The scenario of the depth-1 search

    A position with three legal actions, each leading at once to a terminal
    position, of utilities [+1], [-1] and [+1] for player 0. *)
Module Scenario.

Inductive position : Type := Top | Leaf (k : nat).

Definition sc_actions (s : position) : list nat :=
  match s with
  | Top => [0; 1; 2]%nat
  | Leaf _ => []
  end.

Definition sc_terminal (s : position) : bool :=
  match s with
  | Top => false
  | Leaf _ => true
  end.

Definition sc_utility (s : position) (p : Z) : value :=
  match s with
  | Leaf 1 => if p =? 0 then Fin (-1) else Fin 1
  | Leaf _ => if p =? 0 then Fin 1 else Fin (-1)
  | Top => Fin 0
  end.

#[global] Instance game : Game := {|
  State := position;
  Action := nat;
  Loc := unit;
  Cell := unit;
  actions := sc_actions;
  result := fun s a => match s with Top => Leaf a | Leaf _ => s end;
  terminal_test := sc_terminal;
  utility := sc_utility;
  player := fun s => match s with Top => 0 | Leaf _ => 1 end;
  locs := fun _ => (tt, tt);
  liberties := fun _ _ => [];
  _has_liberties := fun _ _ => false;
|}.

End Scenario.

(** ** The values the root loop computes

    The values [v] of the successive passes of the loop of
    [alpha_beta_search], in the order of [state.actions()]: each is the
    result of the search of depth [depth - 1] below the action, called with
    the [alpha] the loop has reached. *)
Section RootValues.
Context {G : Game}.

Fixpoint root_values (child : State -> value -> res value) (state : State)
    (acts : list Action) (alpha : value) : res (list value) :=
  match acts with
  | [] => Ret []
  | a :: rest =>
      res_bind (child (result state a) alpha) (fun v =>
      res_bind (root_values child state rest (vmax alpha v)) (fun vs =>
      Ret (v :: vs)))
  end.

End RootValues.


(** ** Shape of the search tree

    The notions the statements about the tree are written with. *)
Section TreeShape.
Context {G : Game}.

(** What one pass of the loop of [backprop] does to a node. *)
Definition credited (nd : UTCNode) (rew : Z) : UTCNode :=
  {| visits := visits nd + 1; reward := reward nd + rew;
     state := state nd; children := children nd;
     children_actions := children_actions nd; parent := parent nd |}.

(** Every parent link points to an older node. *)
Definition parents_below (sigma : list UTCNode) : Prop :=
  forall i nd p, sigma !! i = Some nd -> parent nd = Some p -> (p < i)%nat.

(** [chain sigma i path]: [path] lists [i], its parent, the parent of its
    parent, and so on, and ends with a node whose parent is [None]. *)
Inductive chain (sigma : list UTCNode) : node_id -> list node_id -> Prop :=
  | chain_root i nd :
      sigma !! i = Some nd -> parent nd = None -> chain sigma i [i]
  | chain_step i nd p path :
      sigma !! i = Some nd -> parent nd = Some p -> chain sigma p path ->
      chain sigma i (i :: path).

(** Two nodes that differ in their statistics only. *)
Definition same_shape (n n' : UTCNode) : Prop :=
  state n = state n' /\ children n = children n' /\
  children_actions n = children_actions n' /\ parent n = parent n'.

(** [sigma'] has the nodes of [sigma], with statistics changed and visit
    counts not lowered. *)
Definition stats_only (sigma sigma' : list UTCNode) : Prop :=
  length sigma = length sigma' /\
  forall j n n', sigma !! j = Some n -> sigma' !! j = Some n' ->
    same_shape n n' /\ visits n <= visits n'.

(** The store after [add_child]. *)
Definition with_child (sigma : list UTCNode) (self : node_id) (nd : UTCNode)
    (a : Action) : list UTCNode :=
  <[self :=
      {| visits := visits nd; reward := reward nd; state := state nd;
         children := children nd ++ [length sigma];
         children_actions := children_actions nd ++ [a];
         parent := parent nd |}]>
    (sigma ++ [UTCNode_init (result (state nd) a) (Some self)]).

(** [sigma'] keeps every node of [sigma], with the same state and parent,
    a visit count that is not lower and not fewer children. *)
Definition evolves (sigma sigma' : list UTCNode) : Prop :=
  forall j n, sigma !! j = Some n ->
    exists n', sigma' !! j = Some n' /\ state n' = state n /\
               parent n' = parent n /\ visits n <= visits n' /\
               (length (children n) <= length (children n'))%nat.

(** The well-formedness of one node of the tree. *)
Record node_ok (sigma : list UTCNode) (i : node_id) (nd : UTCNode) : Prop := {
  ok_visits : 1 <= visits nd;
  ok_nodup : NoDup (children_actions nd);
  ok_legal : forall a, a ∈ children_actions nd -> a ∈ actions (state nd);
  ok_length : length (children nd) = length (children_actions nd);
  ok_children_nodup : NoDup (children nd);
  ok_children :
    forall k c, children nd !! k = Some c ->
      exists a cn,
        children_actions nd !! k = Some a /\ sigma !! c = Some cn /\
        parent cn = Some i /\ state cn = result (state nd) a /\ (i < c)%nat;
  ok_parent :
    forall p, parent nd = Some p -> (p < i)%nat /\ is_Some (sigma !! p);
  ok_parent_none : parent nd = None -> i = 0%nat;
}.

(** A well-formed tree for the root state [s0]: node 0 is the root. *)
Definition tree_ok (s0 : State) (sigma : list UTCNode) : Prop :=
  (exists root, sigma !! 0%nat = Some root /\ state root = s0 /\
                parent root = None) /\
  (forall i nd, sigma !! i = Some nd -> node_ok sigma i nd).


(** The criterion of [best_child]: [a] leads to the first child of [node]
    whose key [exploitation + c_factor * exploration] is the highest. *)
Definition uct_choice (sigma : list UTCNode) (c_factor : R) (node : node_id)
    (a : Action) : Prop :=
  exists nd k b x,
    sigma !! node = Some nd /\
    children nd !! k = Some b /\ children_actions nd !! k = Some a /\
    uct_key sigma c_factor b = Ret x /\
    forall j c,
      children nd !! j = Some c ->
      exists y, uct_key sigma c_factor c = Ret y /\
                (y <= x)%R /\ ((j < k)%nat -> (y < x)%R).

(** ** What the search assumes of the game

    Every play from [s] ends within [n] moves. *)
Fixpoint ends_within (n : nat) (s : State) : Prop :=
  match n with
  | O => terminal_test s = true
  | S n =>
      terminal_test s = true \/
      forall a, a ∈ actions s -> ends_within n (result s a)
  end.

(** The legal actions of a state are pairwise distinct, a state that is
    not terminal has a legal action, and no play is longer than [horizon]
    moves. *)
Record game_ok (horizon : nat) : Prop := {
  ok_actions_nodup : forall s, NoDup (actions s);
  ok_actions_nonempty : forall s, terminal_test s = false -> actions s <> [];
  ok_horizon : forall s, ends_within horizon s;
}.

End TreeShape.

(** The stores the search passes through: the fresh root, and whatever
    [expand], a random playout and [backprop] make of a store already
    reached. *)
Section Reachable.
Context {G : Game}.
Variable draws : nat -> nat.

Inductive reachable (s0 : State) : world -> Prop :=
  | reach_root sd :
      reachable s0 {| heap := [UTCNode_init s0 None]; seed := sd |}
  | reach_expand w node c w' :
      reachable s0 w -> expand draws node w = Ret (c, w') ->
      reachable s0 w'
  | reach_rollout w fuel st st' w' :
      reachable s0 w -> rollout draws fuel st w = Ret (st', w') ->
      reachable s0 w'
  | reach_backprop w fuel node rew w' :
      reachable s0 w -> backprop fuel node rew w = Ret (tt, w') ->
      reachable s0 w'.


End Reachable.

(** ** Pruned against unpruned search *)

Section Brackets.
Context {G : Game}.

(** What a pruned search [child] owes to the unpruned search [mchild]: both
    return, a result above [alpha] is a lower bound of the true value, and
    a result below [beta] an upper bound. *)
Definition brackets (child : State -> value -> value -> res value)
    (mchild : State -> res value) : Prop :=
  forall s' a b, exists w mc,
    child s' a b = Ret w /\ mchild s' = Ret mc /\
    (vlt a w = true -> vle w mc = true) /\
    (vlt w b = true -> vle mc w = true).

End Brackets.

(** ** A run of the search on the small position

    Every random draw is [0], and the clock reads [0] four times and then
    [1]: the loop makes three passes.
    - Pass 1: the root is not expanded; [expand] draws the move to cell 2
      (node 1).  The playout moves player 1 to the dead end; player 1, who
      was to move at the leaf, has no liberties: reward [+1].  Node 1 gets
      [(visits, reward) = (2, 1)], the root [(2, -1)].
    - Pass 2: [expand] adds the move to cell 3 (node 2).  The playout again
      moves player 1 to the dead end: reward [+1].  Node 2 gets [(2, 1)],
      the root [(3, -2)].  This is [after_two].
    - Pass 3: the root is expanded and its two children have equal keys, so
      [best_child] takes node 1, which [expand] gives the child node 3, a
      terminal position with player 0 to move and free: reward [-1].
      Node 3 gets [(2, -1)], node 1 [(3, 2)], the root [(4, -3)].  This is
      [after_three], the tree the action is chosen from. *)
Module ToyRun.

Definition draws : nat -> nat := fun _ => 0%nat.

Definition clock : list Q := [0; 0; 0; 0; 1]%Q.

Definition fresh : world (G := Toy.game) :=
  {| heap := [UTCNode_init (G := Toy.game) Toy.Start None]; seed := 0 |}.

(** The tree once the root has got its first child. *)
Definition after_expand : world (G := Toy.game) :=
  {| heap :=
       [ @mkNode Toy.game 1 0 Toy.Start [1%nat] [Toy.ToY] None;
         @mkNode Toy.game 1 0 Toy.AfterY [] [] (Some 0%nat) ];
     seed := 1 |}.

Definition after_two : world (G := Toy.game) :=
  {| heap :=
       [ @mkNode Toy.game 3 (-2) Toy.Start [1; 2]%nat [Toy.ToY; Toy.ToZ] None;
         @mkNode Toy.game 2 1 Toy.AfterY [] [] (Some 0%nat);
         @mkNode Toy.game 2 1 Toy.AfterZ [] [] (Some 0%nat) ];
     seed := 4 |}.

Definition after_three : world (G := Toy.game) :=
  {| heap :=
       [ @mkNode Toy.game 4 (-3) Toy.Start [1; 2]%nat [Toy.ToY; Toy.ToZ] None;
         @mkNode Toy.game 3 2 Toy.AfterY [3%nat] [Toy.ToX] (Some 0%nat);
         @mkNode Toy.game 2 1 Toy.AfterZ [] [] (Some 0%nat);
         @mkNode Toy.game 2 (-1) Toy.EndYX [] [] (Some 1%nat) ];
     seed := 5 |}.

End ToyRun.

(** ** The agent's entry point *)

Section GetAction.
Context {G : Game}.
(** [state.ply_count], an attribute of the game state. *)
Variable ply_count : State -> Z.
Variable draws : nat -> nat.


End GetAction.

(** ** Plays, passes and searched trees *)

Section Plays.
Context {G : Game}.

(** [playout s moves final]: playing the legal moves [moves] one after the
    other from [s] passes through states that are not terminal and ends in
    the terminal state [final]. *)
Inductive playout : State -> list Action -> State -> Prop :=
  | playout_done s : terminal_test s = true -> playout s [] s
  | playout_move s a moves final :
      terminal_test s = false -> a ∈ actions s ->
      playout (result s a) moves final ->
      playout s (a :: moves) final.


(** Every non-root node is listed among the children of its parent. *)
Definition listed (sigma : list UTCNode) : Prop :=
  forall i nd p, sigma !! i = Some nd -> parent nd = Some p ->
    exists pn, sigma !! p = Some pn /\ i ∈ children pn.

(** The accumulated reward of a node stays within its number of visits
    after creation. *)
Definition rewards_bounded (sigma : list UTCNode) : Prop :=
  forall i nd, sigma !! i = Some nd ->
    - (visits nd - 1) <= reward nd <= visits nd - 1.

End Plays.

(** The trees between two passes of the loop of [MCTS_search]. *)
Section Searched.
Context {G : Game}.
Variable draws : nat -> nat.

Inductive searched (s0 : State) : world -> Prop :=
  | searched_root sd :
      searched s0 {| heap := [UTCNode_init s0 None]; seed := sd |}
  | searched_pass w fuel w' :
      searched s0 w -> mcts_iteration draws fuel 0 w = Ret (tt, w') ->
      searched s0 w'.

End Searched.
(** * Properties of the minimax search *)

Lemma vle_refl (a : value) : vle a a = true.
Proof. destruct a; simpl; try reflexivity. apply Z.leb_refl. Qed.

Lemma vle_trans (a b c : value) :
  vle a b = true -> vle b c = true -> vle a c = true.
Proof.
  destruct a, b, c; simpl; try reflexivity; try discriminate.
  rewrite !Z.leb_le. lia.
Qed.

Lemma vle_total (a b : value) : vle a b = true \/ vle b a = true.
Proof.
  destruct a, b; simpl; auto.
  rewrite !Z.leb_le. lia.
Qed.

Lemma vlt_vle (a b : value) : vlt a b = true -> vle a b = true.
Proof.
  unfold vlt. intros H. destruct (vle_total a b) as [Hab | Hba]; [done |].
  rewrite Hba in H. discriminate.
Qed.

Lemma vlt_le_trans (a b c : value) :
  vlt a b = true -> vle b c = true -> vlt a c = true.
Proof.
  unfold vlt. intros Hab Hbc.
  destruct (vle c a) eqn:Hca; [| reflexivity].
  rewrite (vle_trans b c a Hbc Hca) in Hab. discriminate.
Qed.

Lemma vle_NegInf_inv (v : value) : vle v NegInf = true -> v = NegInf.
Proof. destruct v; simpl; congruence. Qed.

Section AlphaBetaFacts.
Context {G : Game}.

(** [score] succeeds for the two player identities. *)
Lemma score_defined (s : State) (p : Z) :
  p = 0 \/ p = 1 -> exists v, score s p = Ret v.
Proof. intros [-> | ->]; eexists; reflexivity. Qed.

Lemma min_loop_total child s acts :
  (forall s' a b, exists w, child s' a b = Ret w) ->
  forall v alpha beta, exists w, min_loop child s acts v alpha beta = Ret w.
Proof.
  intros Hchild. induction acts as [| a rest IH]; intros v alpha beta; simpl.
  - eauto.
  - destruct (Hchild (result s a) alpha beta) as [w ->]. simpl.
    destruct (vle (vmin v w) alpha); eauto.
Qed.

Lemma max_loop_total child s acts :
  (forall s' a b, exists w, child s' a b = Ret w) ->
  forall v alpha beta, exists w, max_loop child s acts v alpha beta = Ret w.
Proof.
  intros Hchild. induction acts as [| a rest IH]; intros v alpha beta; simpl.
  - eauto.
  - destruct (Hchild (result s a) alpha beta) as [w ->]. simpl.
    destruct (vle beta (vmax v w)); eauto.
Qed.

(** With a depth that is not negative and more fuel than depth, both
    searches return a value. *)
Lemma min_max_value_total (p : Z) (Hp : p = 0 \/ p = 1) (fuel : nat) :
  forall s depth alpha beta,
    0 <= depth < Z.of_nat fuel ->
    (exists v, min_value fuel s p depth alpha beta = Ret v) /\
    (exists v, max_value fuel s p depth alpha beta = Ret v).
Proof.
  induction fuel as [| fuel IH]; intros s depth alpha beta Hd; [lia |].
  simpl. destruct (terminal_test s); [eauto |].
  destruct (depth =? 0) eqn:Hz.
  - destruct (score_defined s p Hp) as [v ->]. simpl. eauto.
  - apply Z.eqb_neq in Hz. split.
    + apply min_loop_total. intros s' a b. apply IH. lia.
    + apply max_loop_total. intros s' a b. apply IH. lia.
Qed.

Lemma root_values_total child s acts :
  (forall s' a, exists w, child s' a = Ret w) ->
  forall alpha, exists vs, root_values child s acts alpha = Ret vs.
Proof.
  intros Hchild. induction acts as [| a rest IH]; intros alpha; simpl.
  - eauto.
  - destruct (Hchild (result s a) alpha) as [w ->]. simpl.
    destruct (IH (vmax alpha w)) as [vs ->]. simpl. eauto.
Qed.

Lemma root_values_length child s acts :
  forall alpha vs,
    root_values child s acts alpha = Ret vs -> length vs = length acts.
Proof.
  induction acts as [| a rest IH]; intros alpha vs; simpl.
  - intros [= <-]. reflexivity.
  - destruct (child (result s a) alpha) as [w | |]; simpl; try discriminate.
    destruct (root_values child s rest (vmax alpha w)) as [ws | |] eqn:E;
      simpl; try discriminate.
    intros [= <-]. simpl. f_equal. eauto.
Qed.

(** The invariant of the root loop.  If [best_move] already is the last
    maximal action of the passes made so far, of value [best_score], the
    loop ends on the last maximal action of all the passes. *)
Lemma root_loop_last_max child s :
  forall acts alpha best_score best_move vs,
    root_values child s acts alpha = Ret vs ->
    exists move sc,
      root_loop child s acts alpha best_score best_move = Ret (move, sc) /\
      vle best_score sc = true /\
      (forall j w, vs !! j = Some w -> vle w sc = true) /\
      ((move = best_move /\ sc = best_score /\
        forall j w, vs !! j = Some w -> vlt w sc = true) \/
       (exists k a, acts !! k = Some a /\ vs !! k = Some sc /\
          move = Some a /\
          forall j w, (k < j)%nat -> vs !! j = Some w -> vlt w sc = true)).
Proof.
  induction acts as [| a rest IH]; intros alpha best_score best_move vs; simpl.
  - intros [= <-]. exists best_move, best_score.
    split; [reflexivity |]. split; [apply vle_refl |].
    split; [intros j w; rewrite lookup_nil; discriminate |].
    left. repeat split. intros j w. rewrite lookup_nil. discriminate.
  - destruct (child (result s a) alpha) as [v | |]; simpl; try discriminate.
    destruct (root_values child s rest (vmax alpha v)) as [ws | |] eqn:E;
      simpl; try discriminate.
    intros [= <-].
    destruct (vle best_score v) eqn:Hle.
    + destruct (IH (vmax alpha v) v (Some a) ws E)
        as (move & sc & Hrun & Hsc & Hall & Hcase).
      exists move, sc. split; [exact Hrun |].
      split; [eapply vle_trans; eassumption |].
      split.
      { intros [| j] w; simpl; [intros [= <-]; exact Hsc | apply Hall]. }
      right.
      destruct Hcase as [(-> & -> & Hlt) | (k & a' & Ha & Hk & -> & Hlt)].
      * exists 0%nat, a. repeat split.
        intros [| j] w Hj; [lia |]. simpl. apply Hlt.
      * exists (S k), a'. repeat split; try assumption.
        intros [| j] w Hj; [lia |]. simpl. apply Hlt. lia.
    + destruct (IH (vmax alpha v) best_score best_move ws E)
        as (move & sc & Hrun & Hsc & Hall & Hcase).
      assert (Hv : vlt v best_score = true) by (unfold vlt; rewrite Hle; done).
      exists move, sc. split; [exact Hrun |].
      split; [exact Hsc |].
      split.
      { intros [| j] w; simpl; [| apply Hall].
        intros [= <-]. apply vlt_vle. eapply vlt_le_trans; eassumption. }
      destruct Hcase as [(-> & -> & Hlt) | (k & a' & Ha & Hk & -> & Hlt)].
      * left. repeat split.
        intros [| j] w; simpl; [intros [= <-]; exact Hv | apply Hlt].
      * right. exists (S k), a'. repeat split; try assumption.
        intros [| j] w Hj; [lia |]. simpl. apply Hlt. lia.
Qed.

End AlphaBetaFacts.

(** C6.  [alpha_beta_search] evaluates every legal action of the root, in
    the order of [state.actions()], by a search of depth [depth - 1], and
    returns the action whose value is the maximum of the values seen; among
    several maximal actions it returns the one enumerated last (the
    comparison is [>=]).  In particular, a search of depth 1 on a position
    with three legal actions that lead at once to terminal positions of
    utilities [+1], [-1], [+1], in any order, returns an action of utility
    [+1]. *)
Theorem alpha_beta_search_keeps_last_maximum {G : Game}
    (fuel : nat) (p : Z) (s : State) (depth : Z) :
  (p = 0 \/ p = 1 -> 1 <= depth <= Z.of_nat fuel -> actions s <> [] ->
   exists vs k a v,
     root_values (fun s' al => min_value fuel s' p (depth - 1) al PosInf)
                 s (actions s) NegInf = Ret vs /\
     length vs = length (actions s) /\
     actions s !! k = Some a /\ vs !! k = Some v /\
     alpha_beta_root fuel p s depth = Ret (Some a, v) /\
     alpha_beta_search fuel p s depth = Ret (Some a) /\
     (forall j w, vs !! j = Some w -> vle w v = true) /\
     (forall j w, (k < j)%nat -> vs !! j = Some w -> vlt w v = true)) /\
  (forall a b c ua ub uc,
     actions s = [a; b; c] ->
     terminal_test (result s a) = true ->
     terminal_test (result s b) = true ->
     terminal_test (result s c) = true ->
     utility (result s a) p = Fin ua ->
     utility (result s b) p = Fin ub ->
     utility (result s c) p = Fin uc ->
     (ua, ub, uc) = (1, -1, 1) \/ (ua, ub, uc) = (-1, 1, 1) \/
       (ua, ub, uc) = (1, 1, -1) ->
     exists m,
       alpha_beta_search (S fuel) p s 1 = Ret (Some m) /\
       m ∈ actions s /\ utility (result s m) p = Fin 1).
Proof.
  split.
  - intros Hp Hd Hne.
    set (child := fun s' al => min_value fuel s' p (depth - 1) al PosInf).
    destruct (root_values_total child s (actions s)) with (alpha := NegInf)
      as [vs Hvs].
    { intros s' al. unfold child.
      apply (min_max_value_total p Hp fuel s' (depth - 1) al PosInf). lia. }
    pose proof (root_values_length child s _ _ _ Hvs) as Hlen.
    destruct (root_loop_last_max child s _ NegInf NegInf None vs Hvs)
      as (move & sc & Hrun & _ & Hall & Hcase).
    destruct Hcase as [(_ & -> & Hlt) | (k & a & Ha & Hk & -> & Hlt)].
    + exfalso. destruct vs as [| w ws].
      * destruct (actions s); [congruence | discriminate].
      * specialize (Hlt 0%nat w eq_refl). destruct w; discriminate.
    + exists vs, k, a, sc. unfold alpha_beta_search, alpha_beta_root.
      fold child. rewrite Hrun. simpl. repeat split; assumption.
  - intros a b c ua ub uc Hacts Hta Htb Htc Hua Hub Huc Harr.
    unfold alpha_beta_search, alpha_beta_root. rewrite Hacts. simpl.
    rewrite Hta, Htb, Htc. simpl. rewrite Hua, Hub, Huc.
    destruct Harr as [[= -> -> ->] | [[= -> -> ->] | [= -> -> ->]]]; simpl.
    + exists c. repeat split; [rewrite !elem_of_cons; auto | exact Huc].
    + exists c. repeat split; [rewrite !elem_of_cons; auto | exact Huc].
    + exists b. repeat split; [rewrite !elem_of_cons; auto | exact Hub].
Qed.

Lemma alpha_beta_search_keeps_last_maximum_witness :
  (exists vs k a v,
     root_values
       (fun s' al => min_value (G := Scenario.game) 1 s' 0 (1 - 1) al PosInf)
       Scenario.Top (@actions Scenario.game Scenario.Top) NegInf = Ret vs /\
     length vs = length (@actions Scenario.game Scenario.Top) /\
     @actions Scenario.game Scenario.Top !! k = Some a /\ vs !! k = Some v /\
     alpha_beta_root 1 0 Scenario.Top 1 = Ret (Some a, v) /\
     alpha_beta_search 1 0 Scenario.Top 1 = Ret (Some a) /\
     (forall j w, vs !! j = Some w -> vle w v = true) /\
     (forall j w, (k < j)%nat -> vs !! j = Some w -> vlt w v = true)) /\
  (exists m,
     alpha_beta_search (G := Scenario.game) 2 0 Scenario.Top 1
       = Ret (Some m) /\
     m ∈ @actions Scenario.game Scenario.Top /\
     @utility Scenario.game (@result Scenario.game Scenario.Top m) 0 = Fin 1).
Proof.
  split.
  - apply (alpha_beta_search_keeps_last_maximum (G := Scenario.game)
             1 0 Scenario.Top 1).
    + left. reflexivity.
    + simpl. lia.
    + discriminate.
  - apply (proj2 (alpha_beta_search_keeps_last_maximum (G := Scenario.game)
                    1 0 Scenario.Top 1)
             0%nat 1%nat 2%nat 1 (-1) 1); try reflexivity.
    left. reflexivity.
Defined.

(** C10.  On a state without legal actions [alpha_beta_search] returns
    [None], whatever the depth: [best_move] starts as [None] and the loop
    body never runs. *)
Theorem alpha_beta_search_no_actions {G : Game}
    (fuel : nat) (p : Z) (s : State) (depth : Z) :
  actions s = [] -> alpha_beta_search fuel p s depth = Ret None.
Proof.
  intros Hacts. unfold alpha_beta_search, alpha_beta_root.
  rewrite Hacts. reflexivity.
Qed.

Lemma alpha_beta_search_no_actions_witness :
  @actions Toy.game Toy.EndZY = [] /\
  alpha_beta_search (G := Toy.game) 0 0 Toy.EndZY 3 = Ret None.
Proof.
  split; [reflexivity |].
  apply (alpha_beta_search_no_actions (G := Toy.game) 0 0 Toy.EndZY 3).
  reflexivity.
Defined.

(** C9.  For both player identities the static evaluation is
    antisymmetric: [score(state, p) == -score(state, 1 - p)].  This holds
    for every state, terminal or not. *)
Theorem score_antisymmetric {G : Game} (s : State) (p : Z) :
  p = 0 \/ p = 1 ->
  exists v, score s p = Ret v /\ score s (1 - p) = Ret (- v).
Proof.
  intros [-> | ->]; unfold score; simpl; eexists; split; try reflexivity;
    f_equal; lia.
Qed.

Lemma score_antisymmetric_witness :
  exists v, score (G := Toy.game) Toy.AfterZ 1 = Ret v /\
            score (G := Toy.game) Toy.AfterZ (1 - 1) = Ret (- v).
Proof.
  apply (score_antisymmetric (G := Toy.game) Toy.AfterZ 1).
  right. reflexivity.
Defined.

(** C2, at the position [Toy.Start] with depth 2 for player 0.  The search
    returns the move to cell 3 and has computed [float("inf")] for it, but
    the unpruned minimax value of that move is [float("-inf")]: the
    opponent's reply to cell 2 wins.  The other move, to cell 2, has minimax
    value [float("inf")].  Below the second move [min_value] is entered with
    [alpha = inf], returns at [v <= alpha] after the first reply, and the
    root loop accepts the returned bound through [v >= best_score]. *)
Theorem alpha_beta_search_value_differs_from_minimax (fuel : nat) :
  alpha_beta_root (G := Toy.game) (S (S fuel)) 0 Toy.Start 2
    = Ret (Some Toy.ToZ, PosInf) /\
  alpha_beta_search (G := Toy.game) (S (S fuel)) 0 Toy.Start 2
    = Ret (Some Toy.ToZ) /\
  Toy.ToZ ∈ @actions Toy.game Toy.Start /\
  minimax_min (G := Toy.game) (S (S fuel))
    (@result Toy.game Toy.Start Toy.ToZ) 0 (2 - 1)
    = Ret NegInf /\
  minimax_min (G := Toy.game) (S (S fuel))
    (@result Toy.game Toy.Start Toy.ToY) 0 (2 - 1)
    = Ret PosInf.
Proof.
  repeat split; try reflexivity.
  change (Toy.ToZ ∈ [Toy.ToY; Toy.ToZ]).
  rewrite !elem_of_cons. auto.
Qed.

(** ** Pruning against the unpruned search *)

(** Facts about the order of a few search values are settled by cases:
    each value is [NegInf], an integer or [PosInf]. *)
Ltac value_cases :=
  repeat match goal with v : value |- _ => destruct v end;
  unfold vmax, vmin, vlt in *; simpl in *;
  repeat match goal with
         | H : context [ (?x <=? ?y)%Z ] |- _ =>
             destruct (Z.leb_spec x y); simpl in H
         | |- context [ (?x <=? ?y)%Z ] =>
             destruct (Z.leb_spec x y); simpl
         end;
  try discriminate; try congruence; try tauto; try lia;
  try (f_equal; lia);
  intuition (try discriminate; try congruence; try lia;
             try (f_equal; lia)).


Lemma vmax_ge_l (a b : value) : vle a (vmax a b) = true.
Proof. value_cases. Qed.

Lemma vmin_le_l (a b : value) : vle (vmin a b) a = true.
Proof. value_cases. Qed.

Lemma vle_vmax_l (x a b : value) :
  vle x a = true -> vle x (vmax a b) = true.
Proof. intros. value_cases. Qed.

Lemma vle_vmax_r (x a b : value) :
  vle x b = true -> vle x (vmax a b) = true.
Proof. intros. value_cases. Qed.

Lemma vmax_lub (a b x : value) :
  vle a x = true -> vle b x = true -> vle (vmax a b) x = true.
Proof. intros. value_cases. Qed.

Lemma vlt_vmax_intro (a b x : value) :
  vlt a x = true -> vlt b x = true -> vlt (vmax a b) x = true.
Proof. intros. value_cases. Qed.

Lemma vlt_vmax_elim (a b x : value) :
  vlt (vmax a b) x = true -> vlt a x = true /\ vlt b x = true.
Proof. intros. value_cases. Qed.

Lemma vmax_absorb (a0 v w : value) :
  vmax (vmax a0 v) (vmax v w) = vmax a0 (vmax v w).
Proof. value_cases. Qed.

Lemma vle_vmin_l (x a b : value) :
  vle a x = true -> vle (vmin a b) x = true.
Proof. intros. value_cases. Qed.

Lemma vle_vmin_r (x a b : value) :
  vle b x = true -> vle (vmin a b) x = true.
Proof. intros. value_cases. Qed.

Lemma vmin_glb (a b x : value) :
  vle x a = true -> vle x b = true -> vle x (vmin a b) = true.
Proof. intros. value_cases. Qed.

Lemma vlt_vmin_intro (a b x : value) :
  vlt x a = true -> vlt x b = true -> vlt x (vmin a b) = true.
Proof. intros. value_cases. Qed.

Lemma vlt_vmin_elim (a b x : value) :
  vlt x (vmin a b) = true -> vlt x a = true /\ vlt x b = true.
Proof. intros. value_cases. Qed.

Lemma vmin_absorb (b0 v w : value) :
  vmin (vmin b0 v) (vmin v w) = vmin b0 (vmin v w).
Proof. value_cases. Qed.

Lemma vmax_case (a b : value) :
  (vlt a b = true /\ vmax a b = b) \/ (vle b a = true /\ vmax a b = a).
Proof. value_cases. Qed.

Lemma vmin_case (a b : value) :
  (vlt b a = true /\ vmin a b = b) \/ (vle a b = true /\ vmin a b = a).
Proof. value_cases. Qed.

Lemma vlt_not_vle (a b : value) :
  vlt a b = true -> vle b a = true -> False.
Proof. unfold vlt. intros H1 H2. rewrite H2 in H1. discriminate. Qed.

Section PruningFacts.
Context {G : Game}.

(** The unpruned folds only move away from their starting value. *)
Lemma fold_vmax_ge child s acts :
  forall m0 m, fold_res vmax child s acts m0 = Ret m -> vle m0 m = true.
Proof.
  induction acts as [| a rest IH]; intros m0 m; simpl.
  - intros [= <-]. apply vle_refl.
  - destruct (child (result s a)) as [w | |]; simpl; try discriminate.
    intros Hrun. apply IH in Hrun.
    eapply vle_trans; [apply vmax_ge_l | exact Hrun].
Qed.

Lemma fold_vmin_le child s acts :
  forall m0 m, fold_res vmin child s acts m0 = Ret m -> vle m m0 = true.
Proof.
  induction acts as [| a rest IH]; intros m0 m; simpl.
  - intros [= <-]. apply vle_refl.
  - destruct (child (result s a)) as [w | |]; simpl; try discriminate.
    intros Hrun. apply IH in Hrun.
    eapply vle_trans; [exact Hrun | apply vmin_le_l].
Qed.

Lemma fold_res_total f child s acts :
  (forall s', exists w, child s' = Ret w) ->
  forall m0, exists m, fold_res f child s acts m0 = Ret m.
Proof.
  intros Hchild. induction acts as [| a rest IH]; intros m0; simpl;
    [eauto |].
  destruct (Hchild (result s a)) as [w ->]. simpl. apply IH.
Qed.

(** The loop of [max_value], entered with the running maximum [v] of the
    pruned results, the maximum [mv] of the true values of the same
    children, and [alpha] raised to [max(alpha0, v)]. *)
Lemma max_loop_brackets child mchild s (alpha0 beta : value) :
  brackets child mchild ->
  forall acts v mv alpha,
    alpha = vmax alpha0 v ->
    (vlt v beta = true -> vle mv v = true) ->
    (vlt alpha0 v = true -> vle v mv = true) ->
    exists v' m',
      max_loop child s acts v alpha beta = Ret v' /\
      fold_res vmax mchild s acts mv = Ret m' /\
      (vlt alpha0 v' = true -> vle v' m' = true) /\
      (vlt v' beta = true -> vle m' v' = true).
Proof.
  intros Hchild. induction acts as [| a rest IH];
    intros v mv alpha Halpha Hup Hlow; simpl.
  - exists v, mv. done.
  - destruct (Hchild (result s a) alpha beta)
      as (w & mc & -> & Hmc & Hlw & Hup_w).
    rewrite Hmc. simpl.
    assert (Hlow' : vlt alpha0 (vmax v w) = true ->
                    vle (vmax v w) (vmax mv mc) = true).
    { intros Hgt. destruct (vmax_case v w) as [[Hvw Heq] | [Hwv Heq]];
        rewrite Heq in *.
      - apply vle_vmax_r, Hlw. subst alpha. by apply vlt_vmax_intro.
      - by apply vle_vmax_l, Hlow. }
    destruct (vle beta (vmax v w)) eqn:Hcut.
    + destruct (fold_res_total vmax mchild s rest) with (m0 := vmax mv mc)
        as [m' Hm'].
      { intros s'.
        destruct (Hchild s' NegInf NegInf) as (_ & mc' & _ & -> & _). eauto. }
      exists (vmax v w), m'. split; [done |]. split; [done |].
      pose proof (fold_vmax_ge _ _ _ _ _ Hm') as Hge.
      split.
      * intros Hgt. eapply vle_trans; [by apply Hlow' | exact Hge].
      * intros Hlt. exfalso. by eapply vlt_not_vle.
    + apply IH.
      * subst alpha. apply vmax_absorb.
      * intros Hlt. apply vlt_vmax_elim in Hlt as [Hv Hw].
        apply vmax_lub; [by apply vle_vmax_l, Hup | by apply vle_vmax_r, Hup_w].
      * exact Hlow'.
Qed.

(** The loop of [min_value], the mirror image. *)
Lemma min_loop_brackets child mchild s (alpha beta0 : value) :
  brackets child mchild ->
  forall acts v mv beta,
    beta = vmin beta0 v ->
    (vlt alpha v = true -> vle v mv = true) ->
    (vlt v beta0 = true -> vle mv v = true) ->
    exists v' m',
      min_loop child s acts v alpha beta = Ret v' /\
      fold_res vmin mchild s acts mv = Ret m' /\
      (vlt alpha v' = true -> vle v' m' = true) /\
      (vlt v' beta0 = true -> vle m' v' = true).
Proof.
  intros Hchild. induction acts as [| a rest IH];
    intros v mv beta Hbeta Hlow Hup; simpl.
  - exists v, mv. done.
  - destruct (Hchild (result s a) alpha beta)
      as (w & mc & -> & Hmc & Hlw & Hup_w).
    rewrite Hmc. simpl.
    assert (Hup' : vlt (vmin v w) beta0 = true ->
                   vle (vmin mv mc) (vmin v w) = true).
    { intros Hlt. destruct (vmin_case v w) as [[Hwv Heq] | [Hvw Heq]];
        rewrite Heq in *.
      - apply vle_vmin_r, Hup_w. subst beta. by apply vlt_vmin_intro.
      - by apply vle_vmin_l, Hup. }
    destruct (vle (vmin v w) alpha) eqn:Hcut.
    + destruct (fold_res_total vmin mchild s rest) with (m0 := vmin mv mc)
        as [m' Hm'].
      { intros s'.
        destruct (Hchild s' NegInf NegInf) as (_ & mc' & _ & -> & _). eauto. }
      exists (vmin v w), m'. split; [done |]. split; [done |].
      pose proof (fold_vmin_le _ _ _ _ _ Hm') as Hle.
      split.
      * intros Hgt. exfalso. by eapply vlt_not_vle.
      * intros Hlt. eapply vle_trans; [exact Hle | by apply Hup'].
    + apply IH.
      * subst beta. apply vmin_absorb.
      * intros Hgt. apply vlt_vmin_elim in Hgt as [Hv Hw].
        apply vmin_glb; [by apply vle_vmin_l, Hlow | by apply vle_vmin_r, Hlw].
      * exact Hup'.
Qed.

End PruningFacts.

Section PruningTheorems.
Context {G : Game}.

(** [min_value] and [max_value] against the same recursion without window
    and without early return. *)
Lemma searches_bracket (p : Z) (Hp : p = 0 \/ p = 1) (fuel : nat) :
  forall depth, 0 <= depth < Z.of_nat fuel ->
    brackets (fun s a b => min_value fuel s p depth a b)
             (fun s => minimax_min fuel s p depth) /\
    brackets (fun s a b => max_value fuel s p depth a b)
             (fun s => minimax_max fuel s p depth).
Proof.
  induction fuel as [| fuel IH]; intros depth Hd; [lia |].
  split; intros s a b; simpl.
  - destruct (terminal_test s).
    { eexists _, _. repeat split; eauto using vle_refl. }
    destruct (depth =? 0) eqn:Hz.
    { destruct (score_defined s p Hp) as [sc ->]. simpl.
      eexists _, _. repeat split; eauto using vle_refl. }
    apply Z.eqb_neq in Hz.
    destruct (IH (depth - 1)) as [_ Hmax]; [lia |].
    apply (min_loop_brackets _ _ s a b Hmax (actions s) PosInf PosInf b).
    + clear. by destruct b.
    + intros _. apply vle_refl.
    + intros _. apply vle_refl.
  - destruct (terminal_test s).
    { eexists _, _. repeat split; eauto using vle_refl. }
    destruct (depth =? 0) eqn:Hz.
    { destruct (score_defined s p Hp) as [sc ->]. simpl.
      eexists _, _. repeat split; eauto using vle_refl. }
    apply Z.eqb_neq in Hz.
    destruct (IH (depth - 1)) as [Hmin _]; [lia |].
    apply (max_loop_brackets _ _ s a b Hmin (actions s) NegInf NegInf a).
    + clear. by destruct a.
    + intros _. apply vle_refl.
    + intros _. apply vle_refl.
Qed.

(** One pass of the loop of [alpha_beta_search]: whatever the pruned value
    [w] of an action of true value [mc], the new [alpha] and the new
    [best_score] are both [max(alpha, mc)]. *)
Lemma root_step_value (alpha w mc : value) :
  (vlt alpha w = true -> vle w mc = true) ->
  (vlt w PosInf = true -> vle mc w = true) ->
  vmax alpha w = vmax alpha mc /\
  (if vle alpha w then w else alpha) = vmax alpha mc.
Proof. intros. value_cases. Qed.

(** The loop of [alpha_beta_search] against the unpruned maximum: [alpha]
    and [best_score] stay equal, and equal to the maximum of the true values
    of the actions passed. *)
Lemma root_loop_value child mchild s :
  brackets child mchild ->
  forall acts alpha best_move,
    exists move m,
      root_loop (fun s' al => child s' al PosInf) s acts alpha alpha best_move
        = Ret (move, m) /\
      fold_res vmax mchild s acts alpha = Ret m.
Proof.
  intros Hchild. induction acts as [| a rest IH]; intros alpha best_move;
    simpl; [eauto |].
  destruct (Hchild (result s a) alpha PosInf) as (w & mc & -> & -> & Hlw & Hup).
  simpl.
  pose proof (root_step_value alpha w mc Hlw Hup) as [Hnew Hbest].
  rewrite Hnew. destruct (vle alpha w).
  - rewrite Hbest. apply IH.
  - destruct (IH (vmax alpha mc) best_move) as (move & m & Hrun & Hfold).
    exists move, m. split; [| exact Hfold].
    rewrite <- Hrun. by rewrite <- Hbest.
Qed.

(** The first action whose computed value beats everything before it, and
    the [alpha] the loop started with, has exactly that value. *)
Lemma root_values_first_max child mchild s :
  brackets child mchild ->
  forall acts alpha vs,
    root_values (fun s' al => child s' al PosInf) s acts alpha = Ret vs ->
    forall k a v,
      acts !! k = Some a -> vs !! k = Some v ->
      vlt alpha v = true \/ v = NegInf ->
      (forall j w, (j < k)%nat -> vs !! j = Some w -> vlt w v = true) ->
      mchild (result s a) = Ret v.
Proof.
  intros Hchild. induction acts as [| a0 rest IH]; intros alpha vs; simpl.
  - intros _ k a v Hk. by rewrite lookup_nil in Hk.
  - destruct (Hchild (result s a0) alpha PosInf)
      as (w & mc & Hw & Hmc & Hlw & Hup).
    rewrite Hw. simpl.
    destruct (root_values _ s rest (vmax alpha w)) as [ws | |] eqn:E;
      simpl; try discriminate.
    intros [= <-] [| k] a v; simpl.
    + intros [= <-] [= <-] Hv _. rewrite Hmc. f_equal.
      clear IH E Hw Hmc Hchild. value_cases.
    + intros Ha Hv Hgt Hfirst.
      apply (IH _ _ E k a v Ha Hv).
      * specialize (Hfirst 0%nat w ltac:(lia) eq_refl).
        clear IH E Hw Hmc Hchild Hlw Hup Hv Ha. value_cases.
      * intros j w' Hj. apply (Hfirst (S j) w'). lia.
Qed.

End PruningTheorems.



Lemma alpha_beta_root_score_is_minimax_aux {G : Game} (p : Z) (fuel : nat)
    (s : State) (depth : Z) :
  p = 0 \/ p = 1 -> 1 <= depth <= Z.of_nat fuel ->
  terminal_test s = false ->
  exists move sc,
    alpha_beta_root fuel p s depth = Ret (move, sc) /\
    minimax_max (S fuel) s p depth = Ret sc.
Proof.
  intros Hp Hd Hterm.
  destruct (searches_bracket p Hp fuel (depth - 1)) as [Hmin _]; [lia |].
  destruct (root_loop_value _ _ s Hmin (actions s) NegInf None)
    as (move & m & Hrun & Hfold).
  exists move, m. split; [exact Hrun |].
  simpl. rewrite Hterm.
  destruct (Z.eqb_spec depth 0) as [? | _]; [lia |]. exact Hfold.
Qed.

(** X2.  On a state that is not terminal and for a depth of at least 1, the
    [best_score] the loop of [alpha_beta_search] ends with is the value of
    the unpruned search of the same depth: pruning leaves the value of the
    root intact (the move kept with it is another matter). *)
Theorem alpha_beta_root_score_is_minimax {G : Game} (p : Z) (fuel : nat)
    (s : State) (depth : Z) :
  p = 0 \/ p = 1 -> 1 <= depth <= Z.of_nat fuel ->
  terminal_test s = false ->
  exists move sc,
    alpha_beta_root fuel p s depth = Ret (move, sc) /\
    minimax_max (S fuel) s p depth = Ret sc.
Proof.
  intros Hp Hd Hterm.
  by apply alpha_beta_root_score_is_minimax_aux.
Qed.

Lemma alpha_beta_root_score_is_minimax_witness :
  exists move sc,
    alpha_beta_root (G := Toy.game) 2 0 Toy.Start 2 = Ret (move, sc) /\
    minimax_max (G := Toy.game) 3 Toy.Start 0 2 = Ret sc.
Proof.
  apply (alpha_beta_root_score_is_minimax (G := Toy.game) 0 2 Toy.Start 2).
  - left. reflexivity.
  - simpl. lia.
  - reflexivity.
Defined.

(** X3.  Among the actions of the root, the first one whose computed value
    is the final [best_score] is a best move of the unpruned search: its
    unpruned value is [best_score], the unpruned value of the root.  (The
    loop keeps the last such action, not the first.) *)
Theorem first_maximal_action_is_optimal {G : Game} (p : Z) (fuel : nat)
    (s : State) (depth : Z) (vs : list value) (move : option Action)
    (sc : value) (k : nat) (a : Action) :
  p = 0 \/ p = 1 -> 1 <= depth <= Z.of_nat fuel ->
  terminal_test s = false ->
  root_values (fun s' al => min_value fuel s' p (depth - 1) al PosInf)
              s (actions s) NegInf = Ret vs ->
  alpha_beta_root fuel p s depth = Ret (move, sc) ->
  actions s !! k = Some a -> vs !! k = Some sc ->
  (forall j w, (j < k)%nat -> vs !! j = Some w -> vlt w sc = true) ->
  minimax_min fuel (result s a) p (depth - 1) = Ret sc /\
  minimax_max (S fuel) s p depth = Ret sc.
Proof.
  intros Hp Hd Hterm Hvs Hrun Ha Hk Hfirst.
  destruct (searches_bracket p Hp fuel (depth - 1)) as [Hmin _]; [lia |].
  split.
  - apply (root_values_first_max _ _ s Hmin _ _ _ Hvs k a sc Ha Hk);
      [| exact Hfirst].
    clear. destruct sc; auto.
  - destruct (alpha_beta_root_score_is_minimax_aux p fuel s depth Hp Hd Hterm)
      as (move' & sc' & Hrun' & Hm).
    rewrite Hrun in Hrun'. by injection Hrun' as _ <-.
Qed.

(** A move that is not legal, or a position that has ended. *)
Ltac toy_illegal H :=
  exfalso; revert H; apply (bool_decide_unpack (_ ∉ _)); vm_compute;
  exact I.

Ltac toy_ends :=
  simpl;
  first
    [ by left
    | reflexivity
    | right;
      let a := fresh "a" in
      let Ha := fresh "Ha" in
      intros a Ha; destruct a; first [ toy_illegal Ha | toy_ends ] ].

Lemma toy_game_ok : game_ok (G := Toy.game) 2.
Proof.
  split.
  - intros s. apply (bool_decide_unpack (NoDup _)). by destruct s.
  - intros s Hs. by destruct s.
  - intros s. destruct s; toy_ends.
Qed.


Lemma first_maximal_action_is_optimal_witness :
  minimax_min (G := Toy.game) 2 (@result Toy.game Toy.Start Toy.ToY) 0 (2 - 1)
    = Ret PosInf /\
  minimax_max (G := Toy.game) 3 Toy.Start 0 2 = Ret PosInf.
Proof.
  apply (first_maximal_action_is_optimal (G := Toy.game) 0 2 Toy.Start 2
           [PosInf; PosInf] (Some Toy.ToZ) PosInf 0 Toy.ToY);
    try reflexivity.
  - left. reflexivity.
  - simpl. lia.
  - intros j w Hj. lia.
Defined.

(** X4.  [score] returns for the player identities 0 and 1 only.  Any other
    integer raises [IndexError]: [-1] and [-2] pass the first subscript of
    [state.locs] and fail on the second, [locs[1 - player_id]]. *)
Theorem score_needs_player_0_or_1 {G : Game} (s : State) (p : Z) :
  (p = 0 ->
   score s p = Ret (Z.of_nat (length (liberties s (fst (locs s))))
                    - Z.of_nat (length (liberties s (snd (locs s)))))) /\
  (p = 1 ->
   score s p = Ret (Z.of_nat (length (liberties s (snd (locs s))))
                    - Z.of_nat (length (liberties s (fst (locs s)))))) /\
  (p <> 0 -> p <> 1 -> score s p = Raise IndexError).
Proof.
  split; [by intros -> |]. split; [by intros -> |].
  intros H0 H1. unfold score.
  destruct (decide (p = -1)) as [-> | Hm1]; [reflexivity |].
  destruct (decide (p = -2)) as [-> | Hm2]; [reflexivity |].
  unfold tuple2_get.
  destruct (Z.eqb_spec p 0); [done |].
  destruct (Z.eqb_spec p (-2)); [done |].
  destruct (Z.eqb_spec p 1); [done |].
  destruct (Z.eqb_spec p (-1)); [done |].
  reflexivity.
Qed.

Lemma score_needs_player_0_or_1_witness :
  score (G := Toy.game) Toy.Start 0 = Ret 0 /\
  score (G := Toy.game) Toy.AfterY 1 = Ret 0 /\
  score (G := Toy.game) Toy.Start (-1) = Raise IndexError.
Proof.
  split; [| split].
  - apply (proj1 (score_needs_player_0_or_1 (G := Toy.game) Toy.Start 0)).
    reflexivity.
  - apply (proj1 (proj2
             (score_needs_player_0_or_1 (G := Toy.game) Toy.AfterY 1))).
    reflexivity.
  - apply (proj2 (proj2
             (score_needs_player_0_or_1 (G := Toy.game) Toy.Start (-1))));
      discriminate.
Defined.

Section NegativeDepth.
Context {G : Game}.



End NegativeDepth.



(** * Properties of the search tree *)

Section StoreFacts.
Context {G : Game}.

Lemma bind_Ret {A B} (m : M A) (k : A -> M B) (w w' : world) (b : B) :
  bind m k w = Ret (b, w') ->
  exists a w1, m w = Ret (a, w1) /\ k a w1 = Ret (b, w').
Proof.
  unfold bind. destruct (m w) as [[a w1] | |]; try discriminate. eauto.
Qed.

Lemma get_node_Ret (i : node_id) (w w' : world) (nd : UTCNode) :
  get_node i w = Ret (nd, w') -> heap w !! i = Some nd /\ w' = w.
Proof.
  unfold get_node. destruct (heap w !! i); [| discriminate].
  intros [= -> ->]. done.
Qed.

Lemma stats_only_refl sigma : stats_only sigma sigma.
Proof.
  split; [done |]. intros j n n' H1 H2. rewrite H1 in H2.
  injection H2 as <-. repeat split; lia.
Qed.

Lemma stats_only_lookup sigma sigma' j n :
  stats_only sigma sigma' -> sigma !! j = Some n ->
  exists n', sigma' !! j = Some n' /\ same_shape n n' /\ visits n <= visits n'.
Proof.
  intros [Hlen Hst] Hj.
  destruct (sigma' !! j) as [n' |] eqn:E.
  - exists n'. split; [done |]. eauto.
  - apply lookup_ge_None in E. apply lookup_lt_Some in Hj. lia.
Qed.

Lemma stats_only_lookup_inv sigma sigma' j n' :
  stats_only sigma sigma' -> sigma' !! j = Some n' ->
  exists n, sigma !! j = Some n /\ same_shape n n' /\ visits n <= visits n'.
Proof.
  intros [Hlen Hst] Hj.
  destruct (sigma !! j) as [n |] eqn:E.
  - exists n. split; [done |]. eauto.
  - apply lookup_ge_None in E. apply lookup_lt_Some in Hj. lia.
Qed.

Lemma stats_only_trans s1 s2 s3 :
  stats_only s1 s2 -> stats_only s2 s3 -> stats_only s1 s3.
Proof.
  intros H12 H23. split; [destruct H12, H23; congruence |].
  intros j n n3 H1 H3.
  destruct (stats_only_lookup _ _ _ _ H12 H1) as (n2 & H2 & Hs & Hv).
  destruct H23 as [_ H23]. destruct (H23 _ _ _ H2 H3) as [Hs' Hv'].
  destruct Hs as (? & ? & ? & ?), Hs' as (? & ? & ? & ?).
  repeat split; try congruence. lia.
Qed.

Lemma stats_only_credit sigma i nd rew :
  sigma !! i = Some nd -> stats_only sigma (<[i := credited nd rew]> sigma).
Proof.
  intros Hi. split; [by rewrite length_insert |].
  intros j n n' Hj Hj'.
  apply list_lookup_insert_Some in Hj'.
  destruct Hj' as [(-> & <- & _) | (_ & Hj')].
  - rewrite Hi in Hj. injection Hj as <-. repeat split; simpl; lia.
  - rewrite Hj in Hj'. injection Hj' as <-. repeat split; lia.
Qed.

(** A change of statistics keeps the tree well formed. *)
Lemma tree_ok_stats_only s0 sigma sigma' :
  tree_ok s0 sigma -> stats_only sigma sigma' -> tree_ok s0 sigma'.
Proof.
  intros [(root & Hroot & Hs0 & Hpar) Hok] Hst. split.
  - destruct (stats_only_lookup _ _ _ _ Hst Hroot)
      as (root' & Hroot' & (Hs & _ & _ & Hp) & _).
    exists root'. repeat split; congruence.
  - intros i nd' Hi.
    destruct (stats_only_lookup_inv _ _ _ _ Hst Hi)
      as (nd & Hnd & (Hs & Hc & Hca & Hp) & Hv).
    destruct (Hok i nd Hnd) as [V N L Len CN C P PN].
    split.
    + lia.
    + by rewrite <- Hca.
    + rewrite <- Hca, <- Hs. exact L.
    + by rewrite <- Hc, <- Hca.
    + by rewrite <- Hc.
    + intros k c Hk. rewrite <- Hc in Hk.
      destruct (C k c Hk) as (a & cn & Ha & Hcn & Hpc & Hsc & Hlt).
      destruct (stats_only_lookup _ _ _ _ Hst Hcn)
        as (cn' & Hcn' & (Hs' & _ & _ & Hp') & _).
      exists a, cn'. rewrite <- Hca, <- Hs, <- Hs', <- Hp'. done.
    + intros p Hp'. rewrite <- Hp in Hp'. destruct (P p Hp') as [Hlt [pn Hpn]].
      split; [done |].
      destruct (stats_only_lookup _ _ _ _ Hst Hpn) as (pn' & Hpn' & _). eauto.
    + rewrite <- Hp. exact PN.
Qed.

Lemma tree_ok_root s0 : tree_ok s0 [UTCNode_init s0 None].
Proof.
  split.
  - exists (UTCNode_init s0 None). done.
  - intros [| i] nd; simpl; [| rewrite lookup_nil; discriminate].
    intros [= <-]. split; simpl; try done.
    + constructor.
    + intros a Ha. by apply elem_of_nil in Ha.
    + constructor.
Qed.

Lemma with_child_length sigma self nd a :
  length (with_child sigma self nd a) = S (length sigma).
Proof. unfold with_child. rewrite length_insert, length_app. simpl. lia. Qed.

Lemma with_child_lookup sigma self nd a j n :
  sigma !! self = Some nd ->
  with_child sigma self nd a !! j = Some n ->
  (j = self /\
   n = {| visits := visits nd; reward := reward nd; state := state nd;
          children := children nd ++ [length sigma];
          children_actions := children_actions nd ++ [a];
          parent := parent nd |}) \/
  (j <> self /\ sigma !! j = Some n) \/
  (j = length sigma /\ n = UTCNode_init (result (state nd) a) (Some self)).
Proof.
  intros Hself Hj. unfold with_child in Hj.
  apply list_lookup_insert_Some in Hj.
  destruct Hj as [(<- & <- & _) | (Hne & Hj)]; [by left |].
  right. apply lookup_app_Some in Hj.
  destruct Hj as [Hj | [Hge Hj]]; [left; done |].
  right. apply list_lookup_singleton_Some in Hj. destruct Hj as [Hz <-].
  split; [lia | done].
Qed.

Lemma with_child_old sigma self nd a j n :
  sigma !! self = Some nd -> j <> self -> sigma !! j = Some n ->
  with_child sigma self nd a !! j = Some n.
Proof.
  intros Hself Hne Hj. unfold with_child.
  rewrite list_lookup_insert_ne by done.
  by apply lookup_app_l_Some.
Qed.

Lemma with_child_new sigma self nd a :
  sigma !! self = Some nd ->
  with_child sigma self nd a !! length sigma
    = Some (UTCNode_init (result (state nd) a) (Some self)).
Proof.
  intros Hself. unfold with_child.
  apply lookup_lt_Some in Hself as Hlt.
  rewrite list_lookup_insert_ne by lia.
  rewrite lookup_app_r by lia. by rewrite Nat.sub_diag.
Qed.

Lemma with_child_self sigma self nd a :
  sigma !! self = Some nd ->
  with_child sigma self nd a !! self
    = Some {| visits := visits nd; reward := reward nd; state := state nd;
              children := children nd ++ [length sigma];
              children_actions := children_actions nd ++ [a];
              parent := parent nd |}.
Proof.
  intros Hself. unfold with_child.
  apply list_lookup_insert_eq. rewrite length_app.
  apply lookup_lt_Some in Hself. lia.
Qed.

Lemma with_child_keeps sigma self nd a c cn :
  sigma !! self = Some nd -> sigma !! c = Some cn ->
  exists cn', with_child sigma self nd a !! c = Some cn' /\
              parent cn' = parent cn /\ state cn' = state cn /\
              visits cn' = visits cn.
Proof.
  intros Hself Hc. destruct (decide (c = self)) as [Heq | Hne].
  - subst c. rewrite Hself in Hc. injection Hc as <-.
    eexists. split; [by apply with_child_self |]. done.
  - exists cn. split; [by apply with_child_old |]. done.
Qed.

(** [add_child] with a legal action that is not yet recorded keeps the
    tree well formed. *)
Lemma tree_ok_with_child s0 sigma self nd a :
  tree_ok s0 sigma -> sigma !! self = Some nd ->
  a ∈ actions (state nd) -> a ∉ children_actions nd ->
  tree_ok s0 (with_child sigma self nd a).
Proof.
  intros [(root & Hroot & Hs0 & Hpar) Hok] Hself Ha Hfresh.
  apply lookup_lt_Some in Hself as Hlt.
  split.
  - destruct (with_child_keeps sigma self nd a _ _ Hself Hroot)
      as (root' & Hroot' & Hp' & Hs' & _).
    exists root'. repeat split; congruence.
  - intros j n Hj.
    destruct (with_child_lookup _ _ _ _ _ _ Hself Hj)
      as [[-> ->] | [[Hne Hold] | [-> ->]]].
    + destruct (Hok self nd Hself) as [V N L Len CN C P PN].
      split; simpl; try done.
      * apply NoDup_app. split; [done |]. split; [| apply NoDup_singleton].
        intros x Hx Hx'. apply list_elem_of_singleton in Hx'. by subst.
      * intros x Hx. apply elem_of_app in Hx as [Hx | Hx]; [by apply L |].
        apply list_elem_of_singleton in Hx. by subst.
      * rewrite !length_app. simpl. lia.
      * apply NoDup_app. split; [done |]. split; [| apply NoDup_singleton].
        intros x Hx Hx'. apply list_elem_of_singleton in Hx'. subst.
        apply list_elem_of_lookup in Hx as [k Hk].
        destruct (C k _ Hk) as (_ & cn & _ & Hcn & _).
        apply lookup_lt_Some in Hcn. lia.
      * intros k c Hk. apply lookup_app_Some in Hk.
        destruct Hk as [Hk | [Hge Hk]].
        -- destruct (C k c Hk) as (a' & cn & Ha' & Hcn & Hpc & Hsc & Hlt').
           destruct (with_child_keeps sigma self nd a _ _ Hself Hcn)
             as (cn' & Hcn' & Hp' & Hs' & _).
           exists a', cn'. rewrite Hp', Hs'.
           split; [by apply lookup_app_l_Some | done].
        -- apply list_lookup_singleton_Some in Hk. destruct Hk as [Hz <-].
           exists a, (UTCNode_init (result (state nd) a) (Some self)).
           split.
           { assert (k = length (children_actions nd)) as -> by lia.
             by rewrite list_lookup_middle. }
           split; [by apply with_child_new | done].
      * intros p Hp. destruct (P p Hp) as [Hlt' _]. split; [done |].
        apply lookup_lt_is_Some. rewrite with_child_length. lia.
    + destruct (Hok j n Hold) as [V N L Len CN C P PN].
      split; try done.
      * intros k c Hk.
        destruct (C k c Hk) as (a' & cn & Ha' & Hcn & Hpc & Hsc & Hlt').
        destruct (with_child_keeps sigma self nd a _ _ Hself Hcn)
          as (cn' & Hcn' & Hp' & Hs' & _).
        exists a', cn'. rewrite Hp', Hs'. done.
      * intros p Hp. destruct (P p Hp) as [Hlt' _]. split; [done |].
        apply lookup_lt_is_Some. rewrite with_child_length.
        apply lookup_lt_Some in Hold. lia.
    + split; simpl; try done.
      * constructor.
      * intros x Hx. by apply elem_of_nil in Hx.
      * constructor.
      * intros p [= <-]. split; [done |].
        apply lookup_lt_is_Some. rewrite with_child_length. lia.
Qed.

End StoreFacts.

Section OperationFacts.
Context {G : Game}.
Variable draws : nat -> nat.

Lemma random_choice_Ret {A} (seq : list A) (w w' : world) (x : A) :
  random_choice draws seq w = Ret (x, w') ->
  x ∈ seq /\ w' = {| heap := heap w; seed := S (seed w) |}.
Proof.
  unfold random_choice.
  destruct (seq !! _) as [y |] eqn:E; [| discriminate].
  intros [= -> <-]. split; [| done].
  apply list_elem_of_lookup. eauto.
Qed.

Lemma random_choice_total {A} (seq : list A) (w : world) :
  seq <> [] ->
  exists x, x ∈ seq /\
    random_choice draws seq w
      = Ret (x, {| heap := heap w; seed := S (seed w) |}).
Proof.
  intros Hne. unfold random_choice.
  destruct (lookup_lt_is_Some_2 seq (draws (seed w) mod length seq)%nat)
    as [x Hx].
  { apply Nat.mod_upper_bound. destruct seq; [done | simpl; lia]. }
  rewrite Hx. exists x. split; [| done].
  apply list_elem_of_lookup. eauto.
Qed.

(** [expand] on a node of the store: a draw among the untried actions,
    then [add_child]. *)
Lemma expand_eq (node : node_id) (w : world) (nd : UTCNode) :
  heap w !! node = Some nd ->
  expand draws node w =
    let untried :=
      filter (fun a => a ∉ children_actions nd) (actions (state nd)) in
    match untried !! (draws (seed w) mod length untried)%nat with
    | Some a =>
        Ret (length (heap w),
             {| heap := with_child (heap w) node nd a; seed := S (seed w) |})
    | None => Raise IndexError
    end.
Proof.
  intros Hnode. unfold expand, bind at 1, get_node at 1. rewrite Hnode.
  unfold bind at 1, random_choice. simpl.
  destruct (filter _ _ !! _) as [a |]; [| done].
  unfold add_child, bind, alloc, get_node, set_node. simpl.
  rewrite (lookup_app_l_Some _ _ _ _ Hnode). simpl.
  fold (with_child (heap w) node nd a).
  rewrite with_child_self by done. simpl.
  rewrite last_snoc. reflexivity.
Qed.

Lemma expand_Ret (node c : node_id) (w w' : world) :
  expand draws node w = Ret (c, w') ->
  exists nd a,
    heap w !! node = Some nd /\ a ∈ actions (state nd) /\
    (a ∉ children_actions nd) /\ c = length (heap w) /\
    w' = {| heap := with_child (heap w) node nd a; seed := S (seed w) |}.
Proof.
  intros Hrun. destruct (heap w !! node) as [nd |] eqn:Hnode.
  - rewrite (expand_eq node w nd Hnode) in Hrun. simpl in Hrun.
    destruct (filter _ _ !! _) as [a |] eqn:E; [| discriminate].
    injection Hrun as <- <-. exists nd, a.
    assert (Ha : a ∈ filter (fun a => a ∉ children_actions nd)
                        (actions (state nd))).
    { apply list_elem_of_lookup. eauto. }
    apply list_elem_of_filter in Ha as [Hfresh Ha]. done.
  - unfold expand, bind, get_node in Hrun. rewrite Hnode in Hrun.
    discriminate.
Qed.

(** [expand] keeps the tree well formed. *)
Lemma expand_tree_ok s0 (node c : node_id) (w w' : world) :
  tree_ok s0 (heap w) -> expand draws node w = Ret (c, w') ->
  tree_ok s0 (heap w').
Proof.
  intros Hok Hrun.
  destruct (expand_Ret _ _ _ _ Hrun) as (nd & a & Hnd & Ha & Hfresh & -> & ->).
  simpl. by apply tree_ok_with_child.
Qed.

(** The playout does not touch the store. *)
Lemma rollout_heap (fuel : nat) (st st' : State) (w w' : world) :
  rollout draws fuel st w = Ret (st', w') ->
  heap w' = heap w /\ terminal_test st' = true.
Proof.
  revert st w. induction fuel as [| fuel IH]; intros st w; simpl;
    [discriminate |].
  destruct (terminal_test st) eqn:Ht.
  - intros [= <- <-]. done.
  - intros Hrun. apply bind_Ret in Hrun as (a & w1 & Hc & Hrun).
    apply random_choice_Ret in Hc as [_ ->].
    apply IH in Hrun as [-> ?]. done.
Qed.

Lemma default_policy_heap (fuel : nat) (st : State) (w w' : world) (r : Z) :
  default_policy draws fuel st w = Ret (r, w') ->
  heap w' = heap w /\ (r = 1 \/ r = -1).
Proof.
  unfold default_policy. intros Hrun.
  apply bind_Ret in Hrun as (st' & w1 & Hroll & Hrun).
  apply rollout_heap in Hroll as [<- _].
  destruct (_has_liberties st' (player st)); injection Hrun as <- <-; auto.
Qed.

(** One pass of [backprop] and the rest of the walk. *)
Lemma backprop_step (fuel : nat) (i : node_id) (rew : Z) (w : world)
    (nd : UTCNode) :
  heap w !! i = Some nd ->
  backprop (S fuel) (Some i) rew w =
    backprop fuel (parent nd) (- rew)
      {| heap := <[i := credited nd rew]> (heap w); seed := seed w |}.
Proof.
  intros Hi. simpl. unfold bind at 1, get_node. rewrite Hi. reflexivity.
Qed.

(** [backprop] changes statistics only. *)
Lemma backprop_stats_only (fuel : nat) :
  forall (node : option node_id) (rew : Z) (w w' : world),
    backprop fuel node rew w = Ret (tt, w') ->
    stats_only (heap w) (heap w') /\ seed w' = seed w.
Proof.
  induction fuel as [| fuel IH]; intros [i |] rew w w' Hrun.
  - discriminate.
  - injection Hrun as <-. split; [apply stats_only_refl | done].
  - destruct (heap w !! i) as [nd |] eqn:Hi.
    + rewrite (backprop_step _ _ _ _ _ Hi) in Hrun.
      apply IH in Hrun as [Hst Hseed]. simpl in *. split; [| done].
      eapply stats_only_trans; [| exact Hst].
      by apply stats_only_credit.
    + simpl in Hrun. unfold bind, get_node in Hrun. rewrite Hi in Hrun.
      discriminate.
  - injection Hrun as <-. split; [apply stats_only_refl | done].
Qed.

End OperationFacts.

Section BestChildFacts.
Context {G : Game}.
#[local] Open Scope R_scope.

Lemma ln_IZR_nonneg (v : Z) : (1 <= v)%Z -> 0 <= ln (IZR v).
Proof.
  intros Hv. apply IZR_le in Hv.
  destruct (Rle_lt_or_eq_dec _ _ Hv) as [Hlt | <-].
  - left. rewrite <- ln_1. apply ln_increasing; lra.
  - rewrite ln_1. lra.
Qed.

(** The two terms of the score of a node whose visit count and whose
    parent's visit count are at least 1: no exception, and the values of
    the formulas. *)
Lemma scores_eq (sigma : list UTCNode) (p : node_id) (cn pn : UTCNode) :
  parent cn = Some p -> sigma !! p = Some pn ->
  (1 <= visits cn)%Z -> (1 <= visits pn)%Z ->
  exploitation cn = Ret (IZR (reward cn) / IZR (visits cn)) /\
  exploration sigma cn = Ret (sqrt (ln (IZR (visits pn)) / IZR (visits cn))).
Proof.
  intros Hp Hpn Hvc Hvp. unfold exploitation, exploration.
  rewrite Hp, Hpn.
  destruct (Z.eqb_spec (visits cn) 0) as [? | _]; [lia |].
  destruct (Z.leb_spec (visits pn) 0) as [? | _]; [lia |].
  split; [reflexivity |].
  destruct (Rlt_dec _ 0) as [Hneg | _]; [| reflexivity].
  exfalso. apply (Rlt_not_le _ _ Hneg).
  apply Rmult_le_pos; [by apply ln_IZR_nonneg |].
  left. apply Rinv_0_lt_compat. apply IZR_lt. lia.
Qed.

(** The key of such a child is the value of the UCT formula. *)
Lemma uct_key_eq (sigma : list UTCNode) (cf : R) (c p : node_id)
    (cn pn : UTCNode) :
  sigma !! c = Some cn -> parent cn = Some p -> sigma !! p = Some pn ->
  (1 <= visits cn)%Z -> (1 <= visits pn)%Z ->
  uct_key sigma cf c =
    Ret (IZR (reward cn) / IZR (visits cn)
         + cf * sqrt (ln (IZR (visits pn)) / IZR (visits cn))).
Proof.
  intros Hc Hp Hpn Hvc Hvp. unfold uct_key. rewrite Hc.
  destruct (scores_eq sigma p cn pn Hp Hpn Hvc Hvp) as [-> ->].
  reflexivity.
Qed.


(** The loop of [max]: the result is [best], or a later element with a
    strictly higher key; in both cases no element has a higher key, and no
    element before the result has an equal one. *)
Lemma max_loop_key_spec (key : node_id -> res R) (l : list node_id) :
  forall best bk b,
    max_loop_key key best bk l = Ret b ->
    (b = best /\
     forall j c, l !! j = Some c -> exists y, key c = Ret y /\ y <= bk) \/
    (exists k x, l !! k = Some b /\ key b = Ret x /\ bk < x /\
       forall j c, l !! j = Some c ->
         exists y, key c = Ret y /\ y <= x /\ ((j < k)%nat -> y < x)).
Proof.
  induction l as [| c0 rest IH]; intros best bk b; simpl.
  - intros [= <-]. left. split; [done |].
    intros j c. rewrite lookup_nil. discriminate.
  - destruct (key c0) as [k0 | |] eqn:Hk0; simpl; try discriminate.
    destruct (Rlt_dec bk k0) as [Hlt | Hge]; intros Hrun.
    + right.
      destruct (IH _ _ _ Hrun)
        as [[-> Hall] | (k & x & Hk & Hx & Hlt' & Hall)].
      * exists 0%nat, k0. repeat split; try done.
        intros [| j] c; simpl.
        -- intros [= <-]. exists k0. repeat split; [done | lra | lia].
        -- intros Hj. destruct (Hall j c Hj) as (y & Hy & Hle).
           exists y. repeat split; [done | done | lia].
      * exists (S k), x. repeat split; try done; [lra |].
        intros [| j] c; simpl.
        -- intros [= <-]. exists k0. repeat split; [done | lra | intros; lra].
        -- intros Hj. destruct (Hall j c Hj) as (y & Hy & Hle & Hlt'').
           exists y. repeat split; [done | done |]. intros; apply Hlt''. lia.
    + destruct (IH _ _ _ Hrun)
        as [[-> Hall] | (k & x & Hk & Hx & Hlt' & Hall)].
      * left. split; [done |]. intros [| j] c; simpl.
        -- intros [= <-]. exists k0. split; [done | lra].
        -- apply Hall.
      * right. exists (S k), x. repeat split; try done.
        intros [| j] c; simpl.
        -- intros [= <-]. exists k0. repeat split; [done | lra | intros; lra].
        -- intros Hj. destruct (Hall j c Hj) as (y & Hy & Hle & Hlt'').
           exists y. repeat split; [done | done |]. intros; apply Hlt''. lia.
Qed.

(** [max(l, key=...)] returns the first element of [l] of maximal key. *)
Lemma py_max_spec (key : node_id -> res R) (l : list node_id) (b : node_id) :
  py_max key l = Ret b ->
  exists k x, l !! k = Some b /\ key b = Ret x /\
    forall j c, l !! j = Some c ->
      exists y, key c = Ret y /\ y <= x /\ ((j < k)%nat -> y < x).
Proof.
  destruct l as [| c0 rest]; simpl; [discriminate |].
  destruct (key c0) as [k0 | |] eqn:Hk0; simpl; try discriminate.
  intros Hrun.
  destruct (max_loop_key_spec key rest _ _ _ Hrun)
    as [[-> Hall] | (k & x & Hk & Hx & Hlt & Hall)].
  - exists 0%nat, k0. repeat split; try done.
    intros [| j] c; simpl.
    + intros [= <-]. exists k0. repeat split; [done | lra | lia].
    + intros Hj. destruct (Hall j c Hj) as (y & Hy & Hle).
      exists y. repeat split; [done | done | lia].
  - exists (S k), x. repeat split; try done.
    intros [| j] c; simpl.
    + intros [= <-]. exists k0. repeat split; [done | lra | intros; lra].
    + intros Hj. destruct (Hall j c Hj) as (y & Hy & Hle & Hlt').
      exists y. repeat split; [done | done |]. intros; apply Hlt'. lia.
Qed.



Lemma py_max_pair (key : node_id -> res R) (a b : node_id) (ka kb : R) :
  key a = Ret ka -> key b = Ret kb ->
  py_max key [a; b] = Ret (if Rlt_dec ka kb then b else a).
Proof.
  intros Ha Hb. simpl. rewrite Ha. simpl. rewrite Hb. simpl.
  by destruct (Rlt_dec ka kb).
Qed.

Lemma best_child_Ret (node b : node_id) (cf : R) (w w' : world) :
  best_child node cf w = Ret (b, w') ->
  w' = w /\
  exists nd, heap w !! node = Some nd /\
             py_max (uct_key (heap w) cf) (children nd) = Ret b.
Proof.
  unfold best_child. intros Hrun.
  apply bind_Ret in Hrun as (nd & w1 & Hget & Hrun).
  apply get_node_Ret in Hget as [Hnd ->].
  unfold lift in Hrun.
  destruct (py_max _ _) as [b' | |] eqn:E; try discriminate.
  injection Hrun as <- <-. eauto.
Qed.


End BestChildFacts.

Section SearchFacts.
Context {G : Game}.
Variable draws : nat -> nat.

Lemma evolves_refl sigma : evolves sigma sigma.
Proof. intros j n Hj. exists n. repeat split; [done | lia | lia]. Qed.

Lemma evolves_trans s1 s2 s3 : evolves s1 s2 -> evolves s2 s3 -> evolves s1 s3.
Proof.
  intros H12 H23 j n Hj.
  destruct (H12 j n Hj) as (n2 & H2 & Hs & Hp & Hv & Hc).
  destruct (H23 j n2 H2) as (n3 & H3 & Hs' & Hp' & Hv' & Hc').
  exists n3. repeat split; [done | congruence | congruence | lia | lia].
Qed.

Lemma stats_only_evolves sigma sigma' :
  stats_only sigma sigma' -> evolves sigma sigma'.
Proof.
  intros Hst j n Hj.
  destruct (stats_only_lookup _ _ _ _ Hst Hj)
    as (n' & Hn' & (Hs & Hc & _ & Hp) & Hv).
  exists n'. rewrite Hc. repeat split; [done | done | done | lia | lia].
Qed.

Lemma with_child_evolves sigma self nd a :
  sigma !! self = Some nd -> evolves sigma (with_child sigma self nd a).
Proof.
  intros Hself j n Hj. destruct (decide (j = self)) as [Heq | Hne].
  - subst j. rewrite Hself in Hj. injection Hj as <-.
    eexists. split; [by apply with_child_self |]. simpl.
    rewrite length_app. repeat split; lia.
  - exists n. split; [by apply with_child_old |]. repeat split; lia.
Qed.

Lemma expand_evolves (node c : node_id) (w w' : world) :
  expand draws node w = Ret (c, w') -> evolves (heap w) (heap w').
Proof.
  intros Hrun.
  destruct (expand_Ret _ _ _ _ _ Hrun) as (nd & a & Hnd & _ & _ & _ & ->).
  simpl. by apply with_child_evolves.
Qed.

(** Every store the search reaches is a well-formed tree. *)
Lemma reachable_tree_ok s0 (w : world) :
  reachable draws s0 w -> tree_ok s0 (heap w).
Proof.
  induction 1 as [sd | w node c w' _ IH Hrun | w fuel st st' w' _ IH Hrun
                  | w fuel node rew w' _ IH Hrun].
  - apply tree_ok_root.
  - eapply expand_tree_ok; eassumption.
  - apply rollout_heap in Hrun as [-> _]. exact IH.
  - apply backprop_stats_only in Hrun as [Hst _].
    eapply tree_ok_stats_only; eassumption.
Qed.

(** What a call of [tree_policy] that returns has done. *)
Lemma tree_policy_Ret s0 (fuel : nat) :
  forall (node leaf : node_id) (w w' : world),
    reachable draws s0 w ->
    tree_policy draws fuel node w = Ret (leaf, w') ->
    reachable draws s0 w' /\ evolves (heap w) (heap w') /\
    is_Some (heap w' !! leaf) /\
    (length (heap w') <= S (length (heap w)))%nat /\
    (forall nd, heap w !! node = Some nd ->
       terminal_test (state nd) = false -> actions (state nd) <> [] ->
       exists nd', heap w' !! node = Some nd' /\ children nd' <> []).
Proof.
  induction fuel as [| fuel IH]; intros node leaf w w' Hreach; simpl;
    [discriminate |].
  intros Hrun. apply bind_Ret in Hrun as (nd & w1 & Hget & Hrun).
  apply get_node_Ret in Hget as [Hnd ->].
  destruct (terminal_test (state nd)) eqn:Hterm.
  - injection Hrun as <- <-.
    split; [done |]. split; [apply evolves_refl |]. split; [eauto |].
    split; [lia |]. intros nd0 Hnd0. rewrite Hnd in Hnd0.
    injection Hnd0 as <-. congruence.
  - destruct (is_expanded nd) eqn:Hexp; simpl in Hrun.
    + apply bind_Ret in Hrun as (b & w1 & Hbest & Hrun).
      apply best_child_Ret in Hbest as [-> _].
      destruct (IH _ _ _ _ Hreach Hrun) as (Hr & Hev & Hleaf & Hlen & _).
      repeat split; try done.
      intros nd0 Hnd0 _ Hacts. rewrite Hnd in Hnd0. injection Hnd0 as <-.
      destruct (Hev _ _ Hnd) as (nd' & Hnd' & _ & _ & _ & Hc).
      exists nd'. split; [done |].
      pose proof (reachable_tree_ok _ _ Hreach) as [_ Hok].
      pose proof (ok_length _ _ _ (Hok _ _ Hnd)) as Hl.
      unfold is_expanded in Hexp. apply Nat.eqb_eq in Hexp.
      destruct (actions (state nd)); [done |].
      destruct (children nd'); [simpl in *; lia | done].
    + pose proof (expand_evolves _ _ _ _ Hrun) as Hev.
      pose proof (reach_expand draws s0 _ _ _ _ Hreach Hrun) as Hr.
      destruct (expand_Ret _ _ _ _ _ Hrun)
        as (nd0 & a & Hnd0 & _ & _ & -> & ->).
      simpl. repeat split; try done.
      * rewrite Hnd in Hnd0. injection Hnd0 as <-.
        rewrite with_child_new by done. eauto.
      * rewrite with_child_length. lia.
      * intros nd1 Hnd1 _ _. rewrite Hnd0 in Hnd1. injection Hnd1 as <-.
        eexists. split; [by apply with_child_self |]. simpl.
        destruct (children nd0); done.
Qed.

Lemma tree_policy_descend (fuel : nat) (node b : node_id) (w : world)
    (nd : UTCNode) :
  heap w !! node = Some nd -> terminal_test (state nd) = false ->
  is_expanded nd = true -> best_child node (sqrt 2) w = Ret (b, w) ->
  tree_policy draws (S fuel) node w = tree_policy draws fuel b w.
Proof.
  intros Hnd Ht He Hb. simpl. unfold bind at 1, get_node.
  rewrite Hnd, Ht, He. simpl. unfold bind. by rewrite Hb.
Qed.

End SearchFacts.

Section BackpropFacts.
Context {G : Game}.

Lemma chain_le (sigma : list UTCNode) (i : node_id) (path : list node_id) :
  parents_below sigma -> chain sigma i path ->
  forall j, j ∈ path -> (j <= i)%nat.
Proof.
  intros Hpb. induction 1 as [i nd Hi Hp | i nd p path Hi Hp _ IH]; intros j Hj.
  - apply list_elem_of_singleton in Hj. lia.
  - apply elem_of_cons in Hj as [-> | Hj]; [lia |].
    specialize (IH j Hj). specialize (Hpb i nd p Hi Hp). lia.
Qed.

Lemma chain_credit (sigma : list UTCNode) (i0 : node_id) (nd0 : UTCNode)
    (rew : Z) (i : node_id) (path : list node_id) :
  sigma !! i0 = Some nd0 ->
  chain (<[i0 := credited nd0 rew]> sigma) i path -> chain sigma i path.
Proof.
  intros H0. induction 1 as [i nd Hi Hp | i nd p path Hi Hp _ IH].
  - apply list_lookup_insert_Some in Hi as [(<- & <- & _) | (_ & Hi)];
      eapply chain_root; eauto.
  - apply list_lookup_insert_Some in Hi as [(<- & <- & _) | (_ & Hi)];
      eapply chain_step; eauto.
Qed.

Lemma parents_below_credit (sigma : list UTCNode) (i0 : node_id)
    (nd0 : UTCNode) (rew : Z) :
  sigma !! i0 = Some nd0 -> parents_below sigma ->
  parents_below (<[i0 := credited nd0 rew]> sigma).
Proof.
  intros H0 Hpb i nd p Hi Hp.
  apply list_lookup_insert_Some in Hi as [(<- & <- & _) | (_ & Hi)];
    eapply Hpb; eauto.
Qed.

(** The walk of [backprop] from a node of a store whose parent links point
    to older nodes: it returns, the nodes it credits are the chain of
    ancestors, the [k]-th of them receives the reward with sign [(-1)^k],
    and nothing else changes. *)
Lemma backprop_chain (fuel : nat) :
  forall (sigma : list UTCNode) (leaf : node_id) (rew : Z) (sd : nat),
    parents_below sigma -> is_Some (sigma !! leaf) -> (leaf < fuel)%nat ->
    exists path sigma',
      backprop fuel (Some leaf) rew {| heap := sigma; seed := sd |}
        = Ret (tt, {| heap := sigma'; seed := sd |}) /\
      chain sigma leaf path /\
      length sigma' = length sigma /\
      (forall k j, path !! k = Some j ->
         exists n, sigma !! j = Some n /\
           sigma' !! j = Some (credited n (rew * (-1) ^ Z.of_nat k))) /\
      (forall j, j ∉ path -> sigma' !! j = sigma !! j).
Proof.
  induction fuel as [| fuel IH]; intros sigma leaf rew sd Hpb [nd Hnd] Hfuel;
    [lia |].
  rewrite (backprop_step fuel leaf rew _ nd) by done. simpl.
  destruct (parent nd) as [p |] eqn:Hp.
  - pose proof (Hpb leaf nd p Hnd Hp) as Hlt.
    set (sigma1 := <[leaf := credited nd rew]> sigma).
    destruct (IH sigma1 p (- rew) sd)
      as (path & sigma' & Hrun & Hch & Hlen & Hon & Hoff).
    { by apply parents_below_credit. }
    { apply lookup_lt_is_Some. unfold sigma1. rewrite length_insert.
      apply lookup_lt_Some in Hnd. lia. }
    { lia. }
    apply chain_credit in Hch; [| done].
    assert (Hnot : leaf ∉ path).
    { intros Hin. pose proof (chain_le _ _ _ Hpb Hch leaf Hin). lia. }
    exists (leaf :: path), sigma'. split; [exact Hrun |].
    split; [eapply chain_step; eauto |].
    split; [rewrite Hlen; apply length_insert |].
    split.
    + intros [| k] j; simpl.
      * intros [= <-]. exists nd. split; [done |].
        rewrite (Hoff leaf Hnot). unfold sigma1.
        rewrite list_lookup_insert_eq by (by eapply lookup_lt_Some).
        by rewrite Z.mul_1_r.
      * intros Hk. destruct (Hon k j Hk) as (n & Hn & Hn').
        assert (Hj : j ∈ path) by (apply list_elem_of_lookup; eauto).
        pose proof (chain_le _ _ _ Hpb Hch j Hj).
        unfold sigma1 in Hn. rewrite list_lookup_insert_ne in Hn by lia.
        exists n. split; [done |]. rewrite Hn'. do 2 f_equal.
        rewrite Nat2Z.inj_succ, Z.pow_succ_r by lia. lia.
    + intros j Hj. apply not_elem_of_cons in Hj as [Hne Hj].
      rewrite (Hoff j Hj). unfold sigma1.
      by rewrite list_lookup_insert_ne.
  - exists [leaf], (<[leaf := credited nd rew]> sigma).
    split; [by destruct fuel |].
    split; [eapply chain_root; eauto |].
    split; [apply length_insert |].
    split.
    + intros [| k] j; simpl; [| rewrite lookup_nil; discriminate].
      intros [= <-]. exists nd. split; [done |].
      rewrite list_lookup_insert_eq by (by eapply lookup_lt_Some).
      by rewrite Z.mul_1_r.
    + intros j Hj. apply not_elem_of_cons in Hj as [Hne _].
      by rewrite list_lookup_insert_ne.
Qed.

Lemma tree_ok_parents_below s0 (sigma : list UTCNode) :
  tree_ok s0 sigma -> parents_below sigma.
Proof.
  intros [_ Hok] i nd p Hi Hp.
  by destruct (ok_parent _ _ _ (Hok i nd Hi) p Hp).
Qed.

(** In a well-formed tree the chain of ancestors ends at the root. *)
Lemma chain_ends_at_root s0 (sigma : list UTCNode) (i : node_id)
    (path : list node_id) :
  tree_ok s0 sigma -> chain sigma i path -> last path = Some 0%nat.
Proof.
  intros [_ Hok]. induction 1 as [i nd Hi Hp | i nd p path Hi Hp Hch IH].
  - simpl. f_equal. by apply (ok_parent_none _ _ _ (Hok i nd Hi)).
  - destruct path as [| q path]; [inversion Hch |]. exact IH.
Qed.

End BackpropFacts.

Section IterationFacts.
Context {G : Game}.
Variable draws : nat -> nat.

(** What one pass of the loop of [MCTS_search] that returns has done. *)
Lemma mcts_iteration_Ret s0 (fuel : nat) (w w' : world) :
  reachable draws s0 w ->
  mcts_iteration draws fuel 0 w = Ret (tt, w') ->
  reachable draws s0 w' /\ evolves (heap w) (heap w') /\
  (length (heap w') <= S (length (heap w)))%nat /\
  (forall nd, heap w !! 0%nat = Some nd ->
     terminal_test (state nd) = false -> actions (state nd) <> [] ->
     exists nd', heap w' !! 0%nat = Some nd' /\ children nd' <> []).
Proof.
  intros Hreach Hrun. unfold mcts_iteration in Hrun.
  apply bind_Ret in Hrun as (leaf & w1 & Htp & Hrun).
  apply bind_Ret in Hrun as (lf & w1' & Hget & Hrun).
  apply get_node_Ret in Hget as [Hlf ->].
  apply bind_Ret in Hrun as (r & w2 & Hdp & Hrun).
  destruct (tree_policy_Ret draws s0 _ _ _ _ _ Hreach Htp)
    as (Hr1 & Hev1 & _ & Hlen1 & Hroot1).
  unfold default_policy in Hdp.
  apply bind_Ret in Hdp as (st' & w2' & Hroll & Hdp).
  pose proof (reach_rollout draws s0 _ _ _ _ _ Hr1 Hroll) as Hr2.
  apply rollout_heap in Hroll as [Hheap _].
  assert (w2 = w2') as ->
    by (destruct (_has_liberties st' _); by injection Hdp as _ <-).
  pose proof (reach_backprop draws s0 _ _ _ _ _ Hr2 Hrun) as Hr3.
  apply backprop_stats_only in Hrun as [Hst _].
  rewrite Hheap in Hst.
  split; [done |].
  split; [eapply evolves_trans; [exact Hev1 | by apply stats_only_evolves] |].
  split; [destruct Hst as [<- _]; done |].
  intros nd Hnd Hterm Hacts.
  destruct (Hroot1 nd Hnd Hterm Hacts) as (nd1 & Hnd1 & Hc).
  destruct (stats_only_lookup _ _ _ _ Hst Hnd1)
    as (nd' & Hnd' & (_ & Hc' & _) & _).
  exists nd'. split; [done |]. by rewrite <- Hc'.
Qed.

(** What the loop of [MCTS_search] has done when it ends. *)
Lemma search_loop_Ret s0 (fuel : nat) (time_end : Q) (readings : list Q) :
  forall (w w' : world),
    reachable draws s0 w ->
    search_loop draws fuel readings time_end 0 w = Ret (tt, w') ->
    reachable draws s0 w' /\ evolves (heap w) (heap w') /\
    (forall now later nd,
       readings = now :: later -> (now < time_end)%Q ->
       heap w !! 0%nat = Some nd ->
       terminal_test (state nd) = false -> actions (state nd) <> [] ->
       exists nd', heap w' !! 0%nat = Some nd' /\ children nd' <> []).
Proof.
  induction readings as [| now later IH]; intros w w' Hreach; simpl;
    [discriminate |].
  destruct (Qlt_le_dec now time_end) as [Hlt | Hle].
  - intros Hrun. apply bind_Ret in Hrun as ([] & w1 & Hit & Hrun).
    destruct (mcts_iteration_Ret s0 _ _ _ Hreach Hit)
      as (Hr1 & Hev1 & _ & Hroot1).
    destruct (IH _ _ Hr1 Hrun) as (Hr2 & Hev2 & _).
    split; [done |]. split; [eapply evolves_trans; eassumption |].
    intros now' later' nd _ _ Hnd Hterm Hacts.
    destruct (Hroot1 nd Hnd Hterm Hacts) as (nd1 & Hnd1 & Hc).
    destruct (Hev2 _ _ Hnd1) as (nd' & Hnd' & _ & _ & _ & Hlen).
    exists nd'. split; [done |].
    destruct (children nd1); [done |].
    destruct (children nd'); [simpl in Hlen; lia | done].
  - intros [= <-]. split; [done |]. split; [apply evolves_refl |].
    intros now' later' nd [= <- <-] Hlt. exfalso.
    apply (Qlt_not_le _ _ Hlt Hle).
Qed.

(** The [return] statement: the action recorded for the first child of
    maximal key. *)
Lemma final_action_Ret (node : node_id) (a : Action) (w w' : world) :
  final_action node w = Ret (a, w') ->
  w' = w /\ uct_choice (heap w) (sqrt 2) node a.
Proof.
  unfold final_action. intros Hrun.
  apply bind_Ret in Hrun as (b & w1 & Hbest & Hrun).
  apply best_child_Ret in Hbest as [-> (nd & Hnd & Hmax)].
  apply bind_Ret in Hrun as (nd' & w1 & Hget & Hrun).
  apply get_node_Ret in Hget as [Hnd' ->].
  rewrite Hnd in Hnd'. injection Hnd' as <-.
  apply bind_Ret in Hrun as (i & w1 & Hidx & Hrun).
  unfold lift, list_index in Hidx.
  destruct (list_find _ _) as [[i' y] |] eqn:Hfind; [| discriminate].
  injection Hidx as -> <-.
  destruct (children_actions nd !! i) as [a' |] eqn:Ha; [| discriminate].
  injection Hrun as -> <-. split; [done |].
  apply list_find_Some in Hfind as (Hi & -> & Hfirst).
  apply py_max_spec in Hmax as (k & x & Hk & Hx & Hall).
  assert (Hik : (i <= k)%nat).
  { destruct (decide (i <= k)%nat) as [? | Hgt]; [done |].
    exfalso. apply (Hfirst k b Hk); [lia | done]. }
  exists nd, i, b, x. repeat split; try done.
  intros j c Hj. destruct (Hall j c Hj) as (y & Hy & Hle & Hlt).
  exists y. repeat split; [done | done |]. intros Hji. apply Hlt. lia.
Qed.


(** [MCTS_search] on a terminal state and on a state that is not. *)
Lemma MCTS_search_terminal (fuel : nat) (clock : list Q) (st : State)
    (sd : nat) :
  terminal_test st = true ->
  MCTS_search draws fuel clock st sd =
    random_choice draws (actions st)
      {| heap := [UTCNode_init st None]; seed := sd |}.
Proof.
  intros Hterm. unfold MCTS_search, MCTS_body, bind, alloc, get_node. simpl.
  by rewrite Hterm.
Qed.

Lemma MCTS_search_running (fuel : nat) (now : Q) (readings : list Q)
    (st : State) (sd : nat) :
  terminal_test st = false ->
  MCTS_search draws fuel (now :: readings) st sd =
    bind (search_loop draws fuel readings (now + MAX_TIME)%Q 0)
         (fun _ => final_action 0)
         {| heap := [UTCNode_init st None]; seed := sd |}.
Proof.
  intros Hterm. unfold MCTS_search, MCTS_body, bind at 1 2, alloc, get_node.
  simpl. by rewrite Hterm.
Qed.

End IterationFacts.

Section Untried.
Context {G : Game}.

(** A node that is not fully expanded, of a state with pairwise distinct
    legal actions, has an untried action. *)
Lemma untried_nonempty_distinct s0 (sigma : list UTCNode) (node : node_id)
    (nd : UTCNode) :
  tree_ok s0 sigma -> sigma !! node = Some nd ->
  NoDup (actions (state nd)) -> is_expanded nd = false ->
  filter (fun a => a ∉ children_actions nd) (actions (state nd)) <> [].
Proof.
  intros [_ Hok] Hnd Hdistinct Hexp Hnil.
  destruct (Hok _ _ Hnd) as [_ N L _ _ _ _ _].
  assert (Hle1 : (length (actions (state nd))
                  <= length (children_actions nd))%nat).
  { apply submseteq_length, NoDup_submseteq; [done |].
    intros a Ha. destruct (decide (a ∈ children_actions nd)) as [? | Hn];
      [done |].
    exfalso. by apply (filter_nil_not_elem_of _ _ a Hnil Hn). }
  assert (Hle2 : (length (children_actions nd)
                  <= length (actions (state nd)))%nat).
  { by apply submseteq_length, NoDup_submseteq. }
  unfold is_expanded in Hexp. apply Nat.eqb_neq in Hexp. lia.
Qed.

End Untried.

Section Termination.
Context {G : Game}.
Variable draws : nat -> nat.
Variable horizon : nat.
Hypothesis Hgame : game_ok horizon.


(** The random playout ends. *)
Lemma rollout_total (n : nat) :
  forall (fuel : nat) (st : State) (w : world),
    ends_within n st -> (n < fuel)%nat ->
    exists st' w', rollout draws fuel st w = Ret (st', w').
Proof.
  induction n as [| n IH]; intros [| fuel] st w Hend Hfuel; try lia; simpl.
  - simpl in Hend. rewrite Hend. unfold ret. eauto.
  - destruct (terminal_test st) eqn:Hterm; [unfold ret; eauto |].
    destruct Hend as [Hend | Hend]; [congruence |].
    destruct (random_choice_total draws (actions st) w) as (a & Ha & Hc).
    { by apply Hgame. }
    unfold bind. rewrite Hc. apply IH; [by apply Hend | lia].
Qed.




End Termination.

(** * The search on the small position *)

Lemma toy_two_passes :
  bind (mcts_iteration ToyRun.draws 6 0)
       (fun _ => mcts_iteration ToyRun.draws 6 0) ToyRun.fresh
    = Ret (tt, ToyRun.after_two).
Proof. reflexivity. Qed.

(** After two passes the two children of the root have the same key; the
    first one is selected. *)
Lemma toy_best_after_two :
  best_child (G := Toy.game) 0 (sqrt 2) ToyRun.after_two
    = Ret (1%nat, ToyRun.after_two).
Proof.
  unfold best_child, bind, get_node, lift. simpl heap. simpl lookup.
  cbv iota beta. simpl children.
  erewrite py_max_pair.
  2: { eapply (uct_key_eq (G := Toy.game) _ _ 1%nat 0%nat);
       try reflexivity; simpl; lia. }
  2: { eapply (uct_key_eq (G := Toy.game) _ _ 2%nat 0%nat);
       try reflexivity; simpl; lia. }
  simpl. destruct (Rlt_dec _ _) as [H | H]; [| reflexivity].
  exfalso. lra.
Qed.

Lemma toy_third_pass :
  mcts_iteration ToyRun.draws 6 0 ToyRun.after_two
    = Ret (tt, ToyRun.after_three).
Proof.
  unfold mcts_iteration. unfold bind at 1.
  rewrite (tree_policy_descend (G := Toy.game) ToyRun.draws 5 0 1
             ToyRun.after_two _ eq_refl eq_refl eq_refl toy_best_after_two).
  reflexivity.
Qed.

(** The exploration bonus of the child visited once outweighs the lead of
    the child visited twice: [2/3 + sqrt(2 ln 4 / 3) < 1/2 + sqrt(ln 4)]. *)
Lemma toy_uct_gap :
  (2 / 3 + sqrt 2 * sqrt (ln 4 / 3) < 1 / 2 + sqrt 2 * sqrt (ln 4 / 2))%R.
Proof.
  assert (HL : (1 < ln 4)%R).
  { replace 4%R with (2 * 2)%R by lra. rewrite ln_mult by lra.
    pose proof ln_lt_2. lra. }
  rewrite <- !sqrt_mult by lra.
  replace (2 * (ln 4 / 2))%R with (ln 4) by lra.
  set (L := ln 4) in *.
  assert (Hs : (1 < sqrt L)%R).
  { rewrite <- sqrt_1. apply sqrt_lt_1; lra. }
  assert (Hq : (sqrt (2 * (L / 3)) < 5 / 6 * sqrt L)%R).
  { rewrite <- (sqrt_square (5 / 6 * sqrt L)) by lra.
    apply sqrt_lt_1; [lra | nra |].
    replace (5 / 6 * sqrt L * (5 / 6 * sqrt L))%R
      with (25 / 36 * (sqrt L * sqrt L))%R by lra.
    rewrite sqrt_def by lra. lra. }
  lra.
Qed.

Lemma toy_best_after_three :
  best_child (G := Toy.game) 0 (sqrt 2) ToyRun.after_three
    = Ret (2%nat, ToyRun.after_three).
Proof.
  unfold best_child, bind, get_node, lift. simpl heap. simpl lookup.
  cbv iota beta. simpl children.
  erewrite py_max_pair.
  2: { eapply (uct_key_eq (G := Toy.game) _ _ 1%nat 0%nat);
       try reflexivity; simpl; lia. }
  2: { eapply (uct_key_eq (G := Toy.game) _ _ 2%nat 0%nat);
       try reflexivity; simpl; lia. }
  simpl. destruct (Rlt_dec _ _) as [H | H]; [reflexivity |].
  exfalso. apply H. exact toy_uct_gap.
Qed.

(** The whole run: three passes, then the move to cell 3 is returned. *)
Lemma toy_run :
  MCTS_search (G := Toy.game) ToyRun.draws 6 ToyRun.clock Toy.Start 0
    = Ret (Toy.ToZ, ToyRun.after_three).
Proof.
  unfold ToyRun.clock. rewrite MCTS_search_running by reflexivity.
  unfold bind.
  change (search_loop ToyRun.draws 6 [0; 0; 0; 1]%Q (0 + MAX_TIME)%Q 0 _)
    with (bind (bind (mcts_iteration ToyRun.draws 6 0)
                     (fun _ => mcts_iteration ToyRun.draws 6 0))
               (fun _ => bind (mcts_iteration ToyRun.draws 6 0)
                              (fun _ => ret tt))
               ToyRun.fresh).
  unfold bind at 1. rewrite toy_two_passes.
  unfold bind at 1. rewrite toy_third_pass.
  unfold ret, final_action, bind at 1. rewrite toy_best_after_three.
  reflexivity.
Qed.

Lemma toy_parents_below : parents_below (heap ToyRun.after_three).
Proof.
  intros i nd p Hi Hp.
  destruct i as [| [| [| [| i]]]]; simpl in Hi; try discriminate;
    injection Hi as <-; simpl in Hp; try discriminate;
    injection Hp as <-; lia.
Qed.

(** * Properties of the Monte Carlo tree search *)

Section SearchResults.
Context {G : Game}.
Variable draws : nat -> nat.

(** A call of [MCTS_search] on a state that is not terminal, if it returns:
    the tree it built is reachable and the action is the one [best_child]
    selects at the root. *)
Lemma MCTS_search_Ret (fuel : nat) (clock : list Q) (s : State) (sd : nat)
    (a : Action) (w : world) :
  terminal_test s = false ->
  MCTS_search draws fuel clock s sd = Ret (a, w) ->
  reachable draws s w /\ uct_choice (heap w) (sqrt 2) 0 a.
Proof.
  intros Hterm Hrun. destruct clock as [| now readings].
  - unfold MCTS_search, MCTS_body, bind, alloc, get_node in Hrun.
    simpl in Hrun. rewrite Hterm in Hrun. discriminate.
  - rewrite MCTS_search_running in Hrun by done.
    apply bind_Ret in Hrun as ([] & w1 & Hloop & Hfinal).
    apply (search_loop_Ret draws s) in Hloop as (Hreach & _);
      [| apply reach_root].
    apply final_action_Ret in Hfinal as [-> Hchoice]. done.
Qed.


End SearchResults.

(** The tree of the run of [ToyRun] is one the search reaches. *)
Lemma toy_reachable :
  reachable (G := Toy.game) ToyRun.draws Toy.Start ToyRun.after_three.
Proof.
  apply (MCTS_search_Ret (G := Toy.game) ToyRun.draws 6 ToyRun.clock
           Toy.Start 0 Toy.ToZ ToyRun.after_three eq_refl toy_run).
Qed.







(** C4, as amended.  On a terminal root state [MCTS_search] makes no pass
    of the loop and does not read the clock: the tree is left as the fresh
    root, and the result is [random.choice(state.actions())] -- the legal
    action the draw selects, any legal action for a suitable draw, when
    there is one, and [IndexError] when the state has no legal action. *)
Theorem MCTS_search_terminal_root {G : Game} (draws : nat -> nat)
    (fuel : nat) (clock : list Q) (s : State) (sd : nat) :
  terminal_test s = true ->
  let untouched := {| heap := [UTCNode_init s None]; seed := S sd |} in
  (forall a w,
     MCTS_search draws fuel clock s sd = Ret (a, w) <->
     actions s !! (draws sd mod length (actions s))%nat = Some a /\
     w = untouched) /\
  (actions s <> [] ->
   exists a, a ∈ actions s /\
     MCTS_search draws fuel clock s sd = Ret (a, untouched)) /\
  (forall k a, actions s !! k = Some a -> draws sd = k ->
     MCTS_search draws fuel clock s sd = Ret (a, untouched)) /\
  (actions s = [] -> MCTS_search draws fuel clock s sd = Raise IndexError).
Proof.
  intros Hterm untouched. rewrite MCTS_search_terminal by done.
  unfold random_choice. simpl. split; [| split; [| split]].
  - intros a w. split.
    + destruct (actions s !! _) as [x |]; [| discriminate].
      by intros [= -> <-].
    + intros [-> ->]. reflexivity.
  - intros Hne.
    destruct (lookup_lt_is_Some_2 (actions s)
                (draws sd mod length (actions s))%nat) as [a Ha].
    { apply Nat.mod_upper_bound. destruct (actions s); [done | simpl; lia]. }
    exists a. rewrite Ha. split; [| done].
    apply list_elem_of_lookup. eauto.
  - intros k a Hk <-. apply lookup_lt_Some in Hk as Hlt.
    rewrite Nat.mod_small by done. by rewrite Hk.
  - intros ->. reflexivity.
Qed.

Lemma MCTS_search_terminal_root_witness :
  exists a, a ∈ @actions Toy.game Toy.EndYX /\
    MCTS_search (G := Toy.game) ToyRun.draws 0 [] Toy.EndYX 7
      = Ret (a, {| heap := [UTCNode_init (G := Toy.game) Toy.EndYX None];
                   seed := 8 |}).
Proof.
  apply (MCTS_search_terminal_root (G := Toy.game) ToyRun.draws 0 []
           Toy.EndYX 7 eq_refl).
  discriminate.
Defined.

(** C4 as stated fails: the position [Toy.EndZY] is terminal and has no
    legal action, and the call raises [IndexError] instead of returning
    one. *)
Lemma MCTS_search_terminal_without_actions :
  @terminal_test Toy.game Toy.EndZY = true /\
  @actions Toy.game Toy.EndZY = [] /\
  MCTS_search (G := Toy.game) ToyRun.draws 6 ToyRun.clock Toy.EndZY 0
    = Raise IndexError.
Proof. repeat split; reflexivity. Qed.

(** C5.  In a store whose parent links point to older nodes, one call
    [backprop(leaf, r)] returns; the nodes on the path from the leaf up to
    the node whose parent is [None] each get one more visit and the reward
    [r * (-1)^k], [k] being the distance from the leaf; every other node is
    unchanged, and no node is added or removed.  In a well-formed search
    tree the path ends at the root. *)
Theorem backprop_credits_path {G : Game} (fuel : nat)
    (sigma : list UTCNode) (leaf : node_id) (r : Z) (sd : nat) :
  parents_below sigma -> is_Some (sigma !! leaf) -> (leaf < fuel)%nat ->
  exists path sigma',
    backprop fuel (Some leaf) r {| heap := sigma; seed := sd |}
      = Ret (tt, {| heap := sigma'; seed := sd |}) /\
    chain sigma leaf path /\
    length sigma' = length sigma /\
    (forall k j, path !! k = Some j ->
       exists n, sigma !! j = Some n /\
         sigma' !! j =
           Some {| visits := visits n + 1;
                   reward := reward n + r * (-1) ^ Z.of_nat k;
                   state := state n; children := children n;
                   children_actions := children_actions n;
                   parent := parent n |}) /\
    (forall j, j ∉ path -> sigma' !! j = sigma !! j) /\
    (forall s0, tree_ok s0 sigma -> last path = Some 0%nat).
Proof.
  intros Hpb Hleaf Hfuel.
  destruct (backprop_chain fuel sigma leaf r sd Hpb Hleaf Hfuel)
    as (path & sigma' & Hrun & Hch & Hlen & Hon & Hoff).
  exists path, sigma'. repeat split; try done.
  intros s0 Hok. by eapply chain_ends_at_root.
Qed.

Lemma backprop_credits_path_witness :
  exists path sigma',
    backprop (G := Toy.game) 4 (Some 3%nat) 1 ToyRun.after_three
      = Ret (tt, {| heap := sigma'; seed := 5 |}) /\
    chain (heap ToyRun.after_three) 3 path /\
    length sigma' = length (heap ToyRun.after_three) /\
    (forall k j, path !! k = Some j ->
       exists n, heap ToyRun.after_three !! j = Some n /\
         sigma' !! j =
           Some {| visits := visits n + 1;
                   reward := reward n + 1 * (-1) ^ Z.of_nat k;
                   state := state n; children := children n;
                   children_actions := children_actions n;
                   parent := parent n |}) /\
    (forall j, j ∉ path -> sigma' !! j = heap ToyRun.after_three !! j) /\
    (forall s0, tree_ok s0 (heap ToyRun.after_three) ->
       last path = Some 0%nat).
Proof.
  apply (backprop_credits_path (G := Toy.game) 4 (heap ToyRun.after_three)
           3%nat 1 5 toy_parents_below).
  - simpl. eauto.
  - lia.
Defined.

(** C7.  [is_expanded] is true exactly when the node has recorded as many
    child actions as its state has legal actions.  [expand] records one
    more action, a legal action that was not recorded before.  So in every
    tree the search reaches the recorded actions of a node are pairwise
    distinct and legal, there is one child per recorded action, and their
    number does not exceed the number of legal actions. *)
Theorem expansion_bookkeeping {G : Game} (draws : nat -> nat) :
  (forall nd : UTCNode,
     is_expanded nd = true <->
     length (children_actions nd) = length (actions (state nd))) /\
  (forall node c w w',
     expand draws node w = Ret (c, w') ->
     exists nd nd' a,
       heap w !! node = Some nd /\ heap w' !! node = Some nd' /\
       (a ∉ children_actions nd) /\ a ∈ actions (state nd) /\
       children_actions nd' = children_actions nd ++ [a] /\
       children nd' = children nd ++ [c]) /\
  (forall s0 w,
     reachable draws s0 w ->
     forall i nd, heap w !! i = Some nd ->
       NoDup (children_actions nd) /\
       (forall a, a ∈ children_actions nd -> a ∈ actions (state nd)) /\
       length (children nd) = length (children_actions nd) /\
       (length (children_actions nd) <= length (actions (state nd)))%nat).
Proof.
  split; [| split].
  - intros nd. unfold is_expanded. apply Nat.eqb_eq.
  - intros node c w w' Hrun.
    destruct (expand_Ret draws _ _ _ _ Hrun)
      as (nd & a & Hnd & Ha & Hfresh & -> & ->).
    eexists nd, _, a. split; [done |].
    split; [simpl; by apply with_child_self |]. done.
  - intros s0 w Hreach i nd Hnd.
    destruct (reachable_tree_ok draws s0 w Hreach) as [_ Hok].
    destruct (Hok i nd Hnd) as [_ N L Len _ _ _ _].
    repeat split; try done.
    by apply submseteq_length, NoDup_submseteq.
Qed.

Lemma expansion_bookkeeping_witness :
  NoDup [Toy.ToY; Toy.ToZ] /\
  (forall a, a ∈ [Toy.ToY; Toy.ToZ] -> a ∈ @actions Toy.game Toy.Start) /\
  length [1; 2]%nat = length [Toy.ToY; Toy.ToZ] /\
  (length [Toy.ToY; Toy.ToZ] <= length (@actions Toy.game Toy.Start))%nat.
Proof.
  apply (proj2 (proj2 (expansion_bookkeeping (G := Toy.game) ToyRun.draws))
           Toy.Start ToyRun.after_three toy_reachable 0%nat
           (@mkNode Toy.game 4 (-3) Toy.Start [1; 2]%nat [Toy.ToY; Toy.ToZ]
              None) eq_refl).
Defined.

(** C8.  A node is created with [visits = 1]; [expand], the playout and
    [backprop] keep every node and never lower a visit count.  So in every
    tree the search reaches each node has [visits >= 1], and for each node
    below the root both [exploitation] and [exploration] return a number:
    no division by zero, no logarithm of zero. *)
Theorem visits_stay_positive {G : Game} (draws : nat -> nat) :
  (forall st par, visits (UTCNode_init st par) = 1) /\
  (forall node c w w',
     expand draws node w = Ret (c, w') -> evolves (heap w) (heap w')) /\
  (forall fuel st st' w w',
     rollout draws fuel st w = Ret (st', w') -> heap w' = heap w) /\
  (forall fuel node rew w w',
     backprop fuel node rew w = Ret (tt, w') ->
     evolves (heap w) (heap w')) /\
  (forall s0 w,
     reachable draws s0 w ->
     forall i nd, heap w !! i = Some nd ->
       1 <= visits nd /\
       forall p, parent nd = Some p ->
         exists pn,
           heap w !! p = Some pn /\ 1 <= visits pn /\
           exploitation nd = Ret (IZR (reward nd) / IZR (visits nd))%R /\
           exploration (heap w) nd =
             Ret (sqrt (ln (IZR (visits pn)) / IZR (visits nd)))%R).
Proof.
  split; [reflexivity |].
  split; [intros; by eapply expand_evolves |].
  split.
  { intros fuel st st' w w' Hrun. by apply rollout_heap in Hrun as [? _]. }
  split.
  { intros fuel node rew w w' Hrun.
    apply backprop_stats_only in Hrun as [Hst _].
    by apply stats_only_evolves. }
  intros s0 w Hreach i nd Hnd.
  destruct (reachable_tree_ok draws s0 w Hreach) as [_ Hok].
  pose proof (ok_visits _ _ _ (Hok i nd Hnd)) as Hv.
  split; [done |]. intros p Hp.
  destruct (ok_parent _ _ _ (Hok i nd Hnd) p Hp) as [_ [pn Hpn]].
  pose proof (ok_visits _ _ _ (Hok p pn Hpn)) as Hvp.
  exists pn. split; [done |]. split; [done |].
  by apply (scores_eq (heap w) p nd pn).
Qed.

Lemma visits_stay_positive_witness :
  let nd := @mkNode Toy.game 3 2 Toy.AfterY [3%nat] [Toy.ToX] (Some 0%nat) in
  1 <= visits nd /\
  forall p, parent nd = Some p ->
    exists pn,
      heap ToyRun.after_three !! p = Some pn /\ 1 <= visits pn /\
      exploitation nd = Ret (IZR (reward nd) / IZR (visits nd))%R /\
      exploration (heap ToyRun.after_three) nd =
        Ret (sqrt (ln (IZR (visits pn)) / IZR (visits nd)))%R.
Proof.
  apply (proj2 (proj2 (proj2 (proj2
           (visits_stay_positive (G := Toy.game) ToyRun.draws))))
           Toy.Start ToyRun.after_three toy_reachable 1%nat
           (@mkNode Toy.game 3 2 Toy.AfterY [3%nat] [Toy.ToX] (Some 0%nat))
           eq_refl).
Defined.

(** * More on the parts of the tree search *)

Section TreePolicyFacts.
Context {G : Game}.
Variable draws : nat -> nat.

(** [tree_policy] either stops on a node of terminal state and leaves the
    store alone, or expands one node that is not terminal and not fully
    expanded and returns the new child. *)
Lemma tree_policy_shape (fuel : nat) :
  forall (node leaf : node_id) (w w' : world),
    tree_policy draws fuel node w = Ret (leaf, w') ->
    (w' = w /\
     exists nd, heap w !! leaf = Some nd /\ terminal_test (state nd) = true) \/
    (exists par nd a,
       heap w !! par = Some nd /\ terminal_test (state nd) = false /\
       is_expanded nd = false /\ a ∈ actions (state nd) /\
       (a ∉ children_actions nd) /\ leaf = length (heap w) /\
       w' = {| heap := with_child (heap w) par nd a; seed := S (seed w) |}).
Proof.
  induction fuel as [| fuel IH]; intros node leaf w w'; simpl;
    [discriminate |].
  intros Hrun. apply bind_Ret in Hrun as (nd & w1 & Hget & Hrun).
  apply get_node_Ret in Hget as [Hnd ->].
  destruct (terminal_test (state nd)) eqn:Hterm.
  - injection Hrun as <- <-. left. eauto.
  - destruct (is_expanded nd) eqn:Hexp; simpl in Hrun.
    + apply bind_Ret in Hrun as (b & w1 & Hbest & Hrun).
      apply best_child_Ret in Hbest as [-> _]. by apply IH in Hrun.
    + right.
      destruct (expand_Ret draws _ _ _ _ Hrun)
        as (nd0 & a & Hnd0 & Ha & Hfresh & -> & ->).
      rewrite Hnd in Hnd0. injection Hnd0 as <-.
      exists node, nd, a. done.
Qed.

End TreePolicyFacts.

(** X6.  A call of [tree_policy] that returns has either stopped on a node
    whose state is terminal, leaving the tree and the random stream
    untouched, or made exactly one [expand]: one node that was neither
    terminal nor fully expanded got one new child for a legal action it had
    not tried, one draw was consumed, and the new child -- created with one
    visit, no reward, no children -- is the leaf returned.  [tree_policy]
    never changes a visit count or a reward. *)
Theorem tree_policy_expands_once {G : Game} (draws : nat -> nat)
    (fuel : nat) (node leaf : node_id) (w w' : world) :
  tree_policy draws fuel node w = Ret (leaf, w') ->
  (w' = w /\
   exists nd, heap w !! leaf = Some nd /\ terminal_test (state nd) = true) \/
  (exists par nd a,
     heap w !! par = Some nd /\ terminal_test (state nd) = false /\
     is_expanded nd = false /\ a ∈ actions (state nd) /\
     (a ∉ children_actions nd) /\
     leaf = length (heap w) /\ seed w' = S (seed w) /\
     length (heap w') = S (length (heap w)) /\
     heap w' !! leaf = Some (UTCNode_init (result (state nd) a) (Some par)) /\
     heap w' !! par =
       Some {| visits := visits nd; reward := reward nd; state := state nd;
               children := children nd ++ [leaf];
               children_actions := children_actions nd ++ [a];
               parent := parent nd |} /\
     forall j, j <> par -> j <> leaf -> heap w' !! j = heap w !! j).
Proof.
  intros Hrun. destruct (tree_policy_shape draws _ _ _ _ _ Hrun)
    as [Hsame | (par & nd & a & Hnd & Hterm & Hexp & Ha & Hfresh & -> & ->)];
    [by left |].
  right. exists par, nd, a. simpl.
  repeat split; try done.
  - apply with_child_length.
  - by apply with_child_new.
  - by apply with_child_self.
  - intros j Hpar Hleaf. unfold with_child.
    rewrite list_lookup_insert_ne by done.
    destruct (decide (j < length (heap w))%nat) as [Hlt | Hge].
    + by rewrite lookup_app_l.
    + rewrite !lookup_ge_None_2; [done | lia |].
      rewrite length_app. simpl. lia.
Qed.

Lemma tree_policy_expands_once_witness :
  exists par nd a,
    heap ToyRun.fresh !! par = Some nd /\
    terminal_test (state nd) = false /\
    is_expanded nd = false /\ a ∈ actions (state nd) /\
    (a ∉ children_actions nd) /\
    1%nat = length (heap ToyRun.fresh) /\
    seed ToyRun.after_expand = S (seed ToyRun.fresh) /\
    length (heap ToyRun.after_expand) = S (length (heap ToyRun.fresh)) /\
    heap ToyRun.after_expand !! 1%nat
      = Some (UTCNode_init (result (state nd) a) (Some par)) /\
    heap ToyRun.after_expand !! par =
      Some {| visits := visits nd; reward := reward nd; state := state nd;
              children := children nd ++ [1%nat];
              children_actions := children_actions nd ++ [a];
              parent := parent nd |} /\
    forall j, j <> par -> j <> 1%nat ->
      heap ToyRun.after_expand !! j = heap ToyRun.fresh !! j.
Proof.
  destruct (tree_policy_expands_once (G := Toy.game) ToyRun.draws 3 0 1
              ToyRun.fresh ToyRun.after_expand eq_refl)
    as [[Hsame _] | H]; [discriminate Hsame | exact H].
Defined.

Section PlayoutFacts.
Context {G : Game}.
Variable draws : nat -> nat.

Lemma rollout_playout (fuel : nat) :
  forall (st st' : State) (w w' : world),
    rollout draws fuel st w = Ret (st', w') ->
    exists moves,
      playout st moves st' /\ heap w' = heap w /\
      seed w' = (seed w + length moves)%nat.
Proof.
  induction fuel as [| fuel IH]; intros st st' w w'; simpl; [discriminate |].
  destruct (terminal_test st) eqn:Hterm.
  - intros [= <- <-]. exists []. split; [by constructor |]. simpl.
    split; [done | lia].
  - intros Hrun. apply bind_Ret in Hrun as (a & w1 & Hc & Hrun).
    apply random_choice_Ret in Hc as [Ha ->].
    apply IH in Hrun as (moves & Hplay & Hheap & Hseed). simpl in *.
    exists (a :: moves). split; [by constructor |]. simpl.
    split; [done | lia].
Qed.

End PlayoutFacts.

(** X7.  [default_policy] plays a game to its end: when it returns, it has
    played legal moves only, through states that were not terminal, up to
    the first terminal state; it has consumed one draw per move and left
    the tree alone; and the reward is [-1] if the player who was to move at
    the start has liberties in the final state, [+1] if not.  On a terminal
    state it plays nothing and draws nothing.  In a game whose plays are
    bounded it returns. *)
Theorem default_policy_plays_to_the_end {G : Game} (draws : nat -> nat)
    (fuel : nat) (st : State) (w : world) :
  (forall r w',
     default_policy draws fuel st w = Ret (r, w') ->
     exists moves final,
       playout st moves final /\ heap w' = heap w /\
       seed w' = (seed w + length moves)%nat /\
       r = (if _has_liberties final (player st) then -1 else 1)) /\
  (terminal_test st = true -> (0 < fuel)%nat ->
   default_policy draws fuel st w =
     Ret (if _has_liberties st (player st) then -1 else 1, w)) /\
  (forall horizon, game_ok horizon -> (horizon < fuel)%nat ->
   exists r w', default_policy draws fuel st w = Ret (r, w')).
Proof.
  split; [| split].
  - intros r w' Hrun. unfold default_policy in Hrun.
    apply bind_Ret in Hrun as (final & w1 & Hroll & Hrun).
    apply rollout_playout in Hroll as (moves & Hplay & Hheap & Hseed).
    exists moves, final.
    destruct (_has_liberties final (player st)); injection Hrun as <- <-;
      done.
  - intros Hterm Hfuel. destruct fuel as [| fuel]; [lia |].
    unfold default_policy, bind. simpl. rewrite Hterm. unfold ret.
    by destruct (_has_liberties st (player st)).
  - intros horizon Hgame Hfuel.
    destruct (rollout_total draws horizon Hgame horizon fuel st w)
      as (final & w1 & Hroll); [apply Hgame | done |].
    unfold default_policy, bind. rewrite Hroll.
    destruct (_has_liberties final (player st)); unfold ret; eauto.
Qed.

Lemma default_policy_plays_to_the_end_witness :
  exists moves final,
    playout (G := Toy.game) Toy.AfterZ moves final /\
    heap {| heap := heap ToyRun.fresh; seed := 1 |} = heap ToyRun.fresh /\
    1%nat = (seed ToyRun.fresh + length moves)%nat /\
    1 = (if @_has_liberties Toy.game final (@player Toy.game Toy.AfterZ)
         then -1 else 1).
Proof.
  apply (proj1 (default_policy_plays_to_the_end (G := Toy.game) ToyRun.draws
                  3 Toy.AfterZ ToyRun.fresh)
           1 {| heap := heap ToyRun.fresh; seed := 1 |} eq_refl).
Defined.

Section LinkFacts.
Context {G : Game}.
Variable draws : nat -> nat.

(** In every tree the search reaches, a node other than the root is listed
    among the children of its parent. *)
Lemma reachable_listed s0 (w : world) :
  reachable draws s0 w -> listed (heap w).
Proof.
  induction 1 as [sd | w node c w' Hreach IH Hrun
                  | w fuel st st' w' _ IH Hrun
                  | w fuel node rew w' _ IH Hrun].
  - intros [| i] nd p; simpl; [| by rewrite lookup_nil].
    intros [= <-]. discriminate.
  - pose proof (reachable_tree_ok draws s0 w Hreach) as [_ Hok].
    destruct (expand_Ret draws _ _ _ _ Hrun)
      as (nd & a & Hnd & _ & _ & -> & ->).
    simpl. intros i ni p Hi Hp.
    destruct (with_child_lookup _ _ _ _ _ _ Hnd Hi)
      as [[-> ->] | [[Hne Hold] | [-> ->]]]; simpl in Hp.
    + destruct (IH _ _ _ Hnd Hp) as (pn & Hpn & Hin).
      destruct (ok_parent _ _ _ (Hok _ _ Hnd) p Hp) as [Hlt _].
      exists pn. split; [| done]. apply with_child_old; [done | lia | done].
    + destruct (IH _ _ _ Hold Hp) as (pn & Hpn & Hin).
      destruct (decide (p = node)) as [-> | Hpne].
      * rewrite Hnd in Hpn. injection Hpn as <-.
        eexists. split; [by apply with_child_self |]. simpl.
        apply elem_of_app. by left.
      * exists pn. split; [by apply with_child_old | done].
    + injection Hp as <-.
      eexists. split; [by apply with_child_self |]. simpl.
      apply elem_of_app. right. by apply list_elem_of_singleton.
  - apply rollout_heap in Hrun as [-> _]. exact IH.
  - apply backprop_stats_only in Hrun as [Hst _].
    intros i ni p Hi Hp.
    destruct (stats_only_lookup_inv _ _ _ _ Hst Hi)
      as (n0 & Hn0 & (_ & _ & _ & Hpar) & _).
    rewrite <- Hpar in Hp.
    destruct (IH _ _ _ Hn0 Hp) as (pn & Hpn & Hin).
    destruct (stats_only_lookup _ _ _ _ Hst Hpn)
      as (pn' & Hpn' & (_ & Hc & _) & _).
    exists pn'. split; [done |]. by rewrite <- Hc.
Qed.

End LinkFacts.

(** X8.  In every tree the search reaches the links are consistent.  The
    [k]-th child of a node is the node created for the [k]-th recorded
    action: its parent is that node and its state is the result of that
    action; no child is listed twice.  Conversely a node with a parent is
    listed among the children of that parent, which is an older node.  The
    only node without parent is the root, and it holds the state the search
    was called on. *)
Theorem tree_links_are_consistent {G : Game} (draws : nat -> nat)
    (s0 : State) (w : world) :
  reachable draws s0 w ->
  (forall i nd k c,
     heap w !! i = Some nd -> children nd !! k = Some c ->
     exists a cn,
       children_actions nd !! k = Some a /\ heap w !! c = Some cn /\
       parent cn = Some i /\ state cn = result (state nd) a /\ (i < c)%nat) /\
  (forall i nd, heap w !! i = Some nd -> NoDup (children nd)) /\
  (forall i nd p,
     heap w !! i = Some nd -> parent nd = Some p ->
     (p < i)%nat /\ exists pn, heap w !! p = Some pn /\ i ∈ children pn) /\
  (exists root,
     heap w !! 0%nat = Some root /\ state root = s0 /\ parent root = None) /\
  (forall i nd, heap w !! i = Some nd -> parent nd = None -> i = 0%nat).
Proof.
  intros Hreach.
  pose proof (reachable_tree_ok draws s0 w Hreach) as [Hroot Hok].
  pose proof (reachable_listed draws s0 w Hreach) as Hlisted.
  split; [| split; [| split; [| split]]].
  - intros i nd k c Hi Hk. apply (ok_children _ _ _ (Hok i nd Hi) k c Hk).
  - intros i nd Hi. apply (ok_children_nodup _ _ _ (Hok i nd Hi)).
  - intros i nd p Hi Hp.
    destruct (ok_parent _ _ _ (Hok i nd Hi) p Hp) as [Hlt _].
    split; [done |]. by eapply Hlisted.
  - exact Hroot.
  - intros i nd Hi. apply (ok_parent_none _ _ _ (Hok i nd Hi)).
Qed.

Lemma tree_links_are_consistent_witness :
  (forall i nd k c,
     heap ToyRun.after_three !! i = Some nd -> children nd !! k = Some c ->
     exists a cn,
       children_actions nd !! k = Some a /\
       heap ToyRun.after_three !! c = Some cn /\
       parent cn = Some i /\ state cn = result (state nd) a /\ (i < c)%nat) /\
  (forall i nd, heap ToyRun.after_three !! i = Some nd ->
     NoDup (children nd)) /\
  (forall i nd p,
     heap ToyRun.after_three !! i = Some nd -> parent nd = Some p ->
     (p < i)%nat /\
     exists pn, heap ToyRun.after_three !! p = Some pn /\ i ∈ children pn) /\
  (exists root,
     heap ToyRun.after_three !! 0%nat = Some root /\
     state root = Toy.Start /\ parent root = None) /\
  (forall i nd, heap ToyRun.after_three !! i = Some nd ->
     parent nd = None -> i = 0%nat).
Proof.
  apply (tree_links_are_consistent (G := Toy.game) ToyRun.draws Toy.Start
           ToyRun.after_three toy_reachable).
Defined.



Section PassFacts.
Context {G : Game}.
Variable draws : nat -> nat.

(** More fuel does not change what [backprop] returns. *)
Lemma backprop_fuel_mono (fuel : nat) :
  forall (node : option node_id) (rew : Z) (w : world) x,
    backprop fuel node rew w = Ret x ->
    forall k, backprop (fuel + k) node rew w = Ret x.
Proof.
  induction fuel as [| fuel IH]; intros [i |] rew w x Hrun k.
  - discriminate.
  - by destruct k.
  - destruct (heap w !! i) as [nd |] eqn:Hi.
    + change (S fuel + k)%nat with (S (fuel + k)).
      rewrite (backprop_step fuel i rew w nd Hi) in Hrun.
      rewrite (backprop_step (fuel + k) i rew w nd Hi).
      apply IH. exact Hrun.
    + simpl in Hrun. unfold bind, get_node in Hrun. rewrite Hi in Hrun.
      discriminate.
  - simpl in *. done.
Qed.

(** A walk of [backprop] that returned, in a well-formed tree. *)
Lemma backprop_Ret_chain s0 (fuel : nat) (leaf : node_id) (rew : Z)
    (w w' : world) :
  tree_ok s0 (heap w) -> is_Some (heap w !! leaf) ->
  backprop fuel (Some leaf) rew w = Ret (tt, w') ->
  exists path,
    chain (heap w) leaf path /\ last path = Some 0%nat /\
    seed w' = seed w /\ length (heap w') = length (heap w) /\
    (forall k j, path !! k = Some j ->
       exists n, heap w !! j = Some n /\
         heap w' !! j = Some (credited n (rew * (-1) ^ Z.of_nat k))) /\
    (forall j, j ∉ path -> heap w' !! j = heap w !! j).
Proof.
  intros Hok Hleaf Hrun.
  apply backprop_fuel_mono with (k := S leaf) in Hrun.
  destruct (backprop_chain (fuel + S leaf) (heap w) leaf rew (seed w))
    as (path & sigma' & Hrun' & Hch & Hlen & Hon & Hoff).
  { by eapply tree_ok_parents_below. }
  { done. }
  { lia. }
  destruct w as [h sd]. simpl in *. rewrite Hrun in Hrun'.
  injection Hrun' as ->. simpl.
  exists path. repeat split; try done.
  by eapply chain_ends_at_root.
Qed.

(** What one pass of the loop does: [tree_policy], then a reward of [1] or
    [-1] credited along the path from the leaf to the root. *)
Lemma mcts_iteration_effect s0 (fuel : nat) (w w' : world) :
  reachable draws s0 w ->
  mcts_iteration draws fuel 0 w = Ret (tt, w') ->
  exists leaf w1 r path,
    tree_policy draws fuel 0 w = Ret (leaf, w1) /\
    reachable draws s0 w1 /\ (r = 1 \/ r = -1) /\
    chain (heap w1) leaf path /\ last path = Some 0%nat /\
    length (heap w') = length (heap w1) /\
    (forall k j, path !! k = Some j ->
       exists n, heap w1 !! j = Some n /\
         heap w' !! j = Some (credited n (r * (-1) ^ Z.of_nat k))) /\
    (forall j, j ∉ path -> heap w' !! j = heap w1 !! j).
Proof.
  intros Hreach Hrun. unfold mcts_iteration in Hrun.
  apply bind_Ret in Hrun as (leaf & w1 & Htp & Hrun).
  apply bind_Ret in Hrun as (lf & w1' & Hget & Hrun).
  apply get_node_Ret in Hget as [Hlf ->].
  apply bind_Ret in Hrun as (r & w2 & Hdp & Hrun).
  destruct (tree_policy_Ret draws s0 _ _ _ _ _ Hreach Htp) as (Hr1 & _).
  apply default_policy_heap in Hdp as [Hheap Hr].
  pose proof (reachable_tree_ok draws s0 w1 Hr1) as Hok.
  rewrite <- Hheap in Hok.
  destruct (backprop_Ret_chain s0 fuel leaf r w2 w' Hok)
    as (path & Hch & Hlast & _ & Hlen & Hon & Hoff);
    [rewrite Hheap; eauto | done |].
  rewrite Hheap in *.
  exists leaf, w1, r, path. done.
Qed.

End PassFacts.

Section VisitFacts.
Context {G : Game}.
Variable draws : nat -> nat.




End VisitFacts.



Section RewardFacts.
Context {G : Game}.
Variable draws : nat -> nat.

Lemma pow_minus_one (k : nat) :
  (-1) ^ Z.of_nat k = 1 \/ (-1) ^ Z.of_nat k = -1.
Proof.
  induction k as [| k IH]; [by left |].
  rewrite Nat2Z.inj_succ, Z.pow_succ_r by lia. lia.
Qed.

Lemma searched_reachable s0 (w : world) :
  searched draws s0 w -> reachable draws s0 w.
Proof.
  induction 1 as [sd | w fuel w' _ IH Hrun]; [apply reach_root |].
  by destruct (mcts_iteration_Ret draws s0 _ _ _ IH Hrun).
Qed.

(** Between two passes the reward of a node never exceeds, in absolute
    value, the number of visits it got after its creation. *)
Lemma searched_rewards_bounded s0 (w : world) :
  searched draws s0 w -> rewards_bounded (heap w).
Proof.
  induction 1 as [sd | w fuel w' Hs IH Hrun].
  - intros [| i] nd; simpl; [| by rewrite lookup_nil].
    intros [= <-]. simpl. lia.
  - pose proof (searched_reachable s0 w Hs) as Hreach.
    destruct (mcts_iteration_effect draws s0 _ _ _ Hreach Hrun)
      as (leaf & w1 & r & path & Htp & _ & Hr & _ & _ & _ & Hon & Hoff).
    assert (H1 : rewards_bounded (heap w1)).
    { destruct (tree_policy_shape draws _ _ _ _ _ Htp)
        as [[-> _] | (par & nd & a & Hnd & _ & _ & _ & _ & _ & ->)];
        [exact IH |].
      simpl. intros j nj Hj.
      destruct (with_child_lookup _ _ _ _ _ _ Hnd Hj)
        as [[-> ->] | [[_ Hold] | [-> ->]]]; simpl.
      - apply (IH _ _ Hnd).
      - apply (IH _ _ Hold).
      - lia. }
    intros j nj Hj. destruct (decide (j ∈ path)) as [Hin | Hout].
    + apply list_elem_of_lookup in Hin as [k Hk].
      destruct (Hon k j Hk) as (n & Hn & Hn').
      rewrite Hj in Hn'. injection Hn' as ->. simpl.
      pose proof (H1 j n Hn). pose proof (pow_minus_one k). nia.
    + rewrite (Hoff j Hout) in Hj. apply (H1 j nj Hj).
Qed.

Lemma search_loop_searched s0 (fuel : nat) (time_end : Q)
    (readings : list Q) :
  forall w w' : world,
    searched draws s0 w ->
    search_loop draws fuel readings time_end 0 w = Ret (tt, w') ->
    searched draws s0 w'.
Proof.
  induction readings as [| now later IH]; intros w w' Hs; simpl;
    [discriminate |].
  destruct (Qlt_le_dec now time_end) as [Hlt | Hle].
  - intros Hrun. apply bind_Ret in Hrun as ([] & w1 & Hit & Hrun).
    eapply IH; [| exact Hrun]. eapply searched_pass; eauto.
  - by intros [= <-].
Qed.

End RewardFacts.

(** X11.  Between two passes of the loop, and in the tree the action is
    chosen from, the accumulated reward of every node lies between
    [-(visits - 1)] and [visits - 1]: a node is created with one visit and
    no reward, and each later visit adds [+1] or [-1].  Hence
    [exploitation] returns a number strictly between [-1] and [1]. *)
Theorem reward_stays_within_visits {G : Game} (draws : nat -> nat)
    (s0 : State) :
  (forall w, searched draws s0 w ->
     forall i nd, heap w !! i = Some nd ->
       - (visits nd - 1) <= reward nd <= visits nd - 1 /\
       exists x, exploitation nd = Ret x /\ (-1 < x < 1)%R) /\
  (forall fuel clock sd a w,
     terminal_test s0 = false ->
     MCTS_search draws fuel clock s0 sd = Ret (a, w) ->
     searched draws s0 w).
Proof.
  split.
  - intros w Hs i nd Hi.
    pose proof (searched_rewards_bounded draws s0 w Hs i nd Hi) as Hb.
    split; [exact Hb |].
    pose proof (reachable_tree_ok draws s0 w (searched_reachable draws s0 w Hs))
      as [_ Hok].
    pose proof (ok_visits _ _ _ (Hok i nd Hi)) as Hv.
    unfold exploitation.
    destruct (Z.eqb_spec (visits nd) 0) as [? | _]; [lia |].
    eexists. split; [reflexivity |].
    assert (Hpos : (0 < IZR (visits nd))%R) by (apply IZR_lt; lia).
    assert (Hup : (IZR (reward nd) < IZR (visits nd))%R)
      by (apply IZR_lt; lia).
    assert (Hlow : (- IZR (visits nd) < IZR (reward nd))%R)
      by (rewrite <- opp_IZR; apply IZR_lt; lia).
    split.
    + apply (Rmult_lt_reg_r (IZR (visits nd))); [done |].
      unfold Rdiv. rewrite Rmult_assoc, Rinv_l by lra. lra.
    + apply (Rmult_lt_reg_r (IZR (visits nd))); [done |].
      unfold Rdiv. rewrite Rmult_assoc, Rinv_l by lra. lra.
  - intros fuel clock sd a w Hterm Hrun.
    destruct clock as [| now readings].
    + unfold MCTS_search, MCTS_body, bind, alloc, get_node in Hrun.
      simpl in Hrun. rewrite Hterm in Hrun. discriminate.
    + rewrite MCTS_search_running in Hrun by done.
      apply bind_Ret in Hrun as ([] & w1 & Hloop & Hfinal).
      apply final_action_Ret in Hfinal as [<- _].
      eapply search_loop_searched; [| exact Hloop]. apply searched_root.
Qed.

Lemma reward_stays_within_visits_witness :
  let nd := @mkNode Toy.game 3 2 Toy.AfterY [3%nat] [Toy.ToX] (Some 0%nat) in
  - (visits nd - 1) <= reward nd <= visits nd - 1 /\
  exists x, exploitation nd = Ret x /\ (-1 < x < 1)%R.
Proof.
  apply (proj1 (reward_stays_within_visits (G := Toy.game) ToyRun.draws
                  Toy.Start)
           ToyRun.after_three
           (proj2 (reward_stays_within_visits (G := Toy.game) ToyRun.draws
                     Toy.Start)
              6%nat ToyRun.clock 0%nat Toy.ToZ ToyRun.after_three eq_refl
              toy_run)
           1%nat
           (@mkNode Toy.game 3 2 Toy.AfterY [3%nat] [Toy.ToX] (Some 0%nat))
           eq_refl).
Defined.

Section AgentFacts.
Context {G : Game}.
Variable draws : nat -> nat.


End AgentFacts.



(** X13.  In a tree the search reaches, on a node whose state has pairwise
    distinct legal actions, [is_expanded] tells exactly whether [expand]
    can be called: on a node that is not fully expanded [expand] adds a
    child for a legal action not tried before, and on a fully expanded node
    it raises [IndexError] ([random.choice] of an empty list). *)
Theorem expand_needs_an_untried_action {G : Game} (draws : nat -> nat)
    (s0 : State) (w : world) (node : node_id) (nd : UTCNode) :
  reachable draws s0 w -> heap w !! node = Some nd ->
  NoDup (actions (state nd)) ->
  (is_expanded nd = true -> expand draws node w = Raise IndexError) /\
  (is_expanded nd = false ->
   exists a,
     a ∈ actions (state nd) /\ (a ∉ children_actions nd) /\
     expand draws node w =
       Ret (length (heap w),
            {| heap := with_child (heap w) node nd a; seed := S (seed w) |})).
Proof.
  intros Hreach Hnd Hdistinct.
  pose proof (reachable_tree_ok draws s0 w Hreach) as Hok.
  rewrite (expand_eq draws node w nd Hnd). simpl. split.
  - intros Hexp. unfold is_expanded in Hexp. apply Nat.eqb_eq in Hexp.
    destruct Hok as [_ Hok].
    destruct (Hok _ _ Hnd) as [_ N L _ _ _ _ _].
    assert (Hperm : children_actions nd ≡ₚ actions (state nd)).
    { apply submseteq_length_Permutation; [by apply NoDup_submseteq | lia]. }
    destruct (filter _ _) as [| x rest] eqn:Hf; [reflexivity |].
    exfalso.
    assert (Hx : x ∈ filter (fun a => a ∉ children_actions nd)
                        (actions (state nd)))
      by (rewrite Hf; apply list_elem_of_here).
    apply list_elem_of_filter in Hx as [Hfresh Hx].
    apply Hfresh. by rewrite Hperm.
  - intros Hexp.
    pose proof (untried_nonempty_distinct s0 _ _ _ Hok Hnd Hdistinct Hexp)
      as Hne.
    match goal with |- context [ ?l !! ?i ] =>
      destruct (lookup_lt_is_Some_2 l i) as [a Ha]
    end.
    { apply Nat.mod_upper_bound. destruct (filter _ _); [done | simpl; lia]. }
    rewrite Ha. exists a.
    assert (Hin : a ∈ filter (fun a => a ∉ children_actions nd)
                         (actions (state nd)))
      by (apply list_elem_of_lookup; eauto).
    apply list_elem_of_filter in Hin as [Hfresh Hin]. done.
Qed.

Lemma expand_needs_an_untried_action_witness :
  expand (G := Toy.game) ToyRun.draws 1 ToyRun.after_three
    = Raise IndexError /\
  exists a,
    a ∈ @actions Toy.game Toy.AfterZ /\ (a ∉ []) /\
    expand (G := Toy.game) ToyRun.draws 2 ToyRun.after_three =
      Ret (4%nat,
           {| heap := with_child (heap ToyRun.after_three) 2
                        (@mkNode Toy.game 2 1 Toy.AfterZ [] [] (Some 0%nat)) a;
              seed := 6 |}).
Proof.
  split.
  - apply (proj1 (expand_needs_an_untried_action (G := Toy.game) ToyRun.draws
                    Toy.Start ToyRun.after_three 1
                    (@mkNode Toy.game 3 2 Toy.AfterY [3%nat] [Toy.ToX]
                       (Some 0%nat))
                    toy_reachable eq_refl
                    (ok_actions_nodup _ toy_game_ok Toy.AfterY))).
    reflexivity.
  - apply (proj2 (expand_needs_an_untried_action (G := Toy.game) ToyRun.draws
                    Toy.Start ToyRun.after_three 2
                    (@mkNode Toy.game 2 1 Toy.AfterZ [] [] (Some 0%nat))
                    toy_reachable eq_refl
                    (ok_actions_nodup _ toy_game_ok Toy.AfterZ))).
    reflexivity.
Defined.


